(** * Verification of the static-site link rewriter [app.py]

    The development embeds [process_content] and the three passes it is made
    of: the literal domain replacement, the two regular-expression passes that
    put [PATH_PREFIX] in front of root-relative paths, and the pass that adds a
    missing [.html] to internal links after probing the file system.

    Text is a list of characters; a character is one of the 256 code points
    U+0000..U+00FF.  The file system is seen through the two probes the code
    calls, [os.path.isdir] and [os.path.isfile], on POSIX paths.  The driver
    [main], which walks the directory, reads and writes the files and prints
    the report, is embedded over a disk with the two operations it performs,
    given the triples that [os.walk] yields. *)

From Stdlib Require Import Ascii String DecimalString List Bool Arith Lia.
Import ListNotations.

Local Open Scope list_scope.
Local Open Scope nat_scope.

(** ** Text *)

Definition str : Type := list ascii.

(** A literal of the source, as text. *)
Definition lit (s : string) : str := list_ascii_of_string s.

Definition dquote : ascii := "034"%char.
Definition squote : ascii := "039"%char.
Definition newline : ascii := "010"%char.

Module Py.

(** [s.startswith(p)] *)
Fixpoint startswith (s p : str) {struct p} : bool :=
  match p with
  | [] => true
  | x :: p' =>
    match s with
    | [] => false
    | c :: s' => Ascii.eqb c x && startswith s' p'
    end
  end.

(** [s[len(p):]] when [s.startswith(p)], and nothing otherwise. *)
Fixpoint strip_prefix (p s : str) {struct p} : option str :=
  match p with
  | [] => Some s
  | x :: p' =>
    match s with
    | [] => None
    | c :: s' => if Ascii.eqb c x then strip_prefix p' s' else None
    end
  end.

(** [s.endswith(p)] *)
Definition endswith (s p : str) : bool := startswith (rev s) (rev p).

(** [c in chars] for a single character [c] *)
Definition mem (c : ascii) (chars : str) : bool := existsb (Ascii.eqb c) chars.

(** [s.lstrip(chars)] *)
Fixpoint lstrip (s chars : str) : str :=
  match s with
  | [] => []
  | c :: s' => if mem c chars then lstrip s' chars else s
  end.

(** [s.rstrip(chars)] *)
Definition rstrip (s chars : str) : str := rev (lstrip (rev s) chars).

(** [s.split(sep)] for a separator of one character. *)
Fixpoint split (s : str) (sep : ascii) : list str :=
  match s with
  | [] => [[]]
  | c :: s' =>
    if Ascii.eqb c sep then [] :: split s' sep
    else match split s' sep with
         | [] => [[c]]
         | w :: ws => (c :: w) :: ws
         end
  end.

(** [s.split(sep, 1)] for a separator of one character. *)
Fixpoint split1 (s : str) (sep : ascii) : list str :=
  match s with
  | [] => [[]]
  | c :: s' =>
    if Ascii.eqb c sep then [[]; s']
    else match split1 s' sep with
         | [] => [[c]]
         | w :: ws => (c :: w) :: ws
         end
  end.

(** [l[i]], with the empty text where Python raises [IndexError]; every use
    in the program is guarded so that the index exists. *)
Definition item (l : list str) (i : nat) : str := nth i l [].

(** [s[n:]] and [s[:-1]] *)
Definition slice_from (s : str) (n : nat) : str := skipn n s.
Definition drop_last (s : str) : str := removelast s.

(** The scan of [s.replace(old, new)] for a non-empty [old]: occurrences are
    taken left to right and never overlap. *)
Fixpoint replace_scan (fuel : nat) (s old new : str) : str :=
  match fuel with
  | O => s
  | S fuel' =>
    match strip_prefix old s with
    | Some rest => new ++ replace_scan fuel' rest old new
    | None =>
      match s with
      | [] => []
      | c :: s' => c :: replace_scan fuel' s' old new
      end
    end
  end.

(** [s.replace(old, new)].  With an empty [old] Python puts [new] before
    every character and at the end. *)
Definition replace (s old new : str) : str :=
  match old with
  | [] => new ++ flat_map (fun c => c :: new) s
  | _ :: _ => replace_scan (length s) s old new
  end.

(** [os.sep] and [os.path.join(a, b)] of [posixpath]. *)
Definition os_sep : str := lit "/".

Definition os_path_join (a b : str) : str :=
  if startswith b os_sep then b
  else if (match a with [] => true | _ => false end) || endswith a os_sep
       then a ++ b
       else a ++ os_sep ++ b.

End Py.

(** ** Regular expressions

    The fragment of [re] that the three patterns use, run by backtracking in
    the order Python tries things: the left branch of [|] first, the longest
    run of a greedy [*] or [?] first, the shortest run of a lazy [*?] first. *)

Module Re.

(** What one pattern character accepts. *)
Inductive cclass : Type :=
| CLit (x : ascii)        (* a literal character *)
| CSpace                  (* \s *)
| CDot                    (* .  (no DOTALL) *)
| CQuote.                 (* the class of the two quote characters *)

Inductive regex : Type :=
| Eps
| Chr (c : cclass)
| Seq (r1 r2 : regex)
| Alt (r1 r2 : regex)
| Star (c : cclass)       (* c*   greedy *)
| StarLazy (c : cclass)   (* c*?  lazy *)
| Opt (c : cclass)        (* c?   greedy *)
| Group (n : nat) (r : regex)
| Backref (n : nat).

(** Simple lower-casing of a code point below 256: A-Z and the capital
    letters of Latin-1 (U+00C0..U+00DE without the multiplication sign). *)
Definition lower (c : ascii) : ascii :=
  let n := nat_of_ascii c in
  if ((65 <=? n) && (n <=? 90)) || ((192 <=? n) && (n <=? 222) && negb (n =? 215))
  then ascii_of_nat (n + 32) else c.

(** [\s] of a [str] pattern below U+0100: TAB LF VT FF CR, FS GS RS US,
    SPACE, NEL and NBSP. *)
Definition is_space (c : ascii) : bool :=
  let n := nat_of_ascii c in
  ((9 <=? n) && (n <=? 13)) || ((28 <=? n) && (n <=? 32)) || (n =? 133) || (n =? 160).

Definition is_quote (c : ascii) : bool := Ascii.eqb c dquote || Ascii.eqb c squote.

(** Character equality under the flags of the pattern. *)
Definition chr_eq (ignorecase : bool) (x c : ascii) : bool :=
  if ignorecase then Ascii.eqb (lower c) (lower x) else Ascii.eqb c x.

Definition accepts (ignorecase : bool) (k : cclass) (c : ascii) : bool :=
  match k with
  | CLit x => chr_eq ignorecase x c
  | CSpace => is_space c
  | CDot => negb (Ascii.eqb c newline)
  | CQuote => is_quote c
  end.

(** Captured groups: group [n] is bound to the text it matched last. *)
Definition groups : Type := list (nat * str).

Fixpoint lookup (n : nat) (g : groups) : option str :=
  match g with
  | [] => None
  | (m, t) :: g' => if Nat.eqb n m then Some t else lookup n g'
  end.

Definition bind (n : nat) (t : str) (g : groups) : groups := (n, t) :: g.

(** The text between position [s] and the later position [s']. *)
Definition consumed (s s' : str) : str := firstn (length s - length s') s.

(** [t] read at the head of [s], up to case when the flag says so. *)
Fixpoint strip_same (ignorecase : bool) (t s : str) {struct t} : option str :=
  match t with
  | [] => Some s
  | x :: t' =>
    match s with
    | [] => None
    | c :: s' => if chr_eq ignorecase x c then strip_same ignorecase t' s' else None
    end
  end.

Section Run.

Context {R : Type}.
Variable ignorecase : bool.

Fixpoint star_greedy (c : cclass) (s : str) (k : str -> option R) : option R :=
  match s with
  | [] => k []
  | a :: s' =>
    if accepts ignorecase c a then
      match star_greedy c s' k with
      | Some r => Some r
      | None => k s
      end
    else k s
  end.

Fixpoint star_lazy (c : cclass) (s : str) (k : str -> option R) : option R :=
  match k s with
  | Some r => Some r
  | None =>
    match s with
    | [] => None
    | a :: s' => if accepts ignorecase c a then star_lazy c s' k else None
    end
  end.

(** [run r s g k]: match [r] at the head of [s] with the groups [g] bound so
    far, then go on with [k]; when [k] fails the next way of matching [r] is
    tried. *)
Fixpoint run (r : regex) (s : str) (g : groups)
         (k : str -> groups -> option R) : option R :=
  match r with
  | Eps => k s g
  | Chr c =>
    match s with
    | [] => None
    | a :: s' => if accepts ignorecase c a then k s' g else None
    end
  | Seq r1 r2 => run r1 s g (fun s' g' => run r2 s' g' k)
  | Alt r1 r2 =>
    match run r1 s g k with
    | Some x => Some x
    | None => run r2 s g k
    end
  | Star c => star_greedy c s (fun s' => k s' g)
  | StarLazy c => star_lazy c s (fun s' => k s' g)
  | Opt c =>
    match s with
    | [] => k s g
    | a :: s' =>
      if accepts ignorecase c a then
        match k s' g with
        | Some x => Some x
        | None => k s g
        end
      else k s g
    end
  | Group n r1 => run r1 s g (fun s' g' => k s' (bind n (consumed s s') g'))
  | Backref n =>
    match lookup n g with
    | None => None
    | Some t =>
      match strip_same ignorecase t s with
      | Some s' => k s' g
      | None => None
      end
    end
  end.

End Run.

(** A match object: [group(0)] is the whole match. *)
Definition Match : Type := groups.

Definition group (m : Match) (n : nat) : str :=
  match lookup n m with
  | Some t => t
  | None => []
  end.

(** The pattern tried at the head of [s] ([pattern.match]): the match object
    and the text after the match. *)
Definition match_at (ignorecase : bool) (r : regex) (s : str) : option (Match * str) :=
  run ignorecase r s [] (fun s' g => Some (bind 0 (consumed s s') g, s')).

(** [pattern.sub(repl, s)] with a function [repl]: the leftmost match is
    replaced and the scan goes on after it; an empty match is replaced and
    the scan moves one character on. *)
Fixpoint sub_scan (fuel : nat) (ignorecase : bool) (r : regex)
         (repl : Match -> str) (s : str) : str :=
  match fuel with
  | O => s
  | S fuel' =>
    match match_at ignorecase r s with
    | Some (m, rest) =>
      if length rest <? length s
      then repl m ++ sub_scan fuel' ignorecase r repl rest
      else match s with
           | [] => repl m
           | c :: s' => repl m ++ c :: sub_scan fuel' ignorecase r repl s'
           end
    | None =>
      match s with
      | [] => []
      | c :: s' => c :: sub_scan fuel' ignorecase r repl s'
      end
    end
  end.

Definition sub (ignorecase : bool) (r : regex) (repl : Match -> str) (s : str) : str :=
  sub_scan (S (length s)) ignorecase r repl s.

(** A literal word of a pattern. *)
Fixpoint word (w : str) : regex :=
  match w with
  | [] => Eps
  | x :: w' => Seq (Chr (CLit x)) (word w')
  end.

End Re.

(** ** The program *)

Import Py Re.

(** *** Configuration *)

Definition OLD_DOMAIN : str := lit "mychart-app.com".
Definition NEW_DOMAIN : str := lit "mychart-ap.github.io/download/".
Definition PATH_PREFIX : str := lit "/download".
Definition FIX_MISSING_HTML_EXTENSION : bool := true.

(** *** The file system, as [fix_html_link] sees it *)

Record FileSystem : Type := {
  isdir : str -> bool;     (* os.path.isdir *)
  isfile : str -> bool     (* os.path.isfile *)
}.

(** *** The three patterns *)

Definition alt (rs : list regex) (last : regex) : regex := fold_right Alt last rs.

(** The pattern for HTML attributes, compiled with [re.IGNORECASE]: one of six
    attribute names with its [=], white space, a quote (group 2), a path
    that starts with a slash and runs lazily (group 3), the same quote. *)
Definition html_pattern : regex :=
  Seq (Group 1 (alt [word (lit "href="); word (lit "src="); word (lit "action=");
                     word (lit "content="); word (lit "data-src=")]
                    (word (lit "srcset="))))
 (Seq (Star CSpace)
 (Seq (Group 2 (Chr CQuote))
 (Seq (Group 3 (Seq (Chr (CLit "/"%char)) (StarLazy CDot)))
      (Backref 2)))).

(** The pattern for CSS [url(...)], compiled with [re.IGNORECASE]. *)
Definition css_pattern : regex :=
  Seq (Group 1 (Seq (word (lit "url(")) (Star CSpace)))
 (Seq (Group 2 (Opt CQuote))
 (Seq (Group 3 (Seq (Chr (CLit "/"%char)) (StarLazy CDot)))
 (Seq (Group 4 (Opt CQuote))
      (Group 5 (Seq (Star CSpace) (Chr (CLit ")"%char))))))).

(** The pattern for links, compiled without flags. *)
Definition href_pattern : regex :=
  Seq (word (lit "href="))
 (Seq (Group 1 (Chr CQuote))
 (Seq (Group 2 (StarLazy CDot))
      (Backref 1))).

(** *** The callbacks *)

Definition replace_callback (m : Match) : str :=
  let full_match := group m 0 in
  let prefix_part := group m 1 in
  let quote := group m 2 in
  let path := group m 3 in
  if startswith path (lit "//") then full_match
  else if startswith path PATH_PREFIX
          || startswith path (rstrip PATH_PREFIX (lit "/") ++ lit "/")
  then full_match
  else
    let clean_prefix := rstrip PATH_PREFIX (lit "/") in
    let new_path := clean_prefix ++ path in
    prefix_part ++ quote ++ new_path ++ quote.

Definition css_callback (m : Match) : str :=
  let full_match := group m 0 in
  let start_url := group m 1 in
  let quote := group m 2 in
  let path := group m 3 in
  let end_quote := group m 4 in
  let end_url := group m 5 in
  if startswith path (lit "//") then full_match
  else if startswith path PATH_PREFIX then full_match
  else
    let clean_prefix := rstrip PATH_PREFIX (lit "/") in
    let new_path := clean_prefix ++ path in
    start_url ++ quote ++ new_path ++ end_quote ++ end_url.

(** The steps of [fix_html_link], named as its local variables. *)
Definition clean_path_of (url : str) : str :=
  let rel_path := slice_from url (length PATH_PREFIX) in
  let clean_path := item (split (item (split rel_path "?"%char) 0) "#"%char) 0 in
  let clean_path :=
    if startswith clean_path (lit "/") then lstrip clean_path (lit "/") else clean_path in
  let clean_path :=
    if endswith clean_path (lit "/") then rstrip clean_path (lit "/") else clean_path in
  clean_path.

Definition potential_file_path_of (root_dir url : str) : str :=
  os_path_join root_dir (replace (clean_path_of url) (lit "/") os_sep).

Definition potential_html_of (root_dir url : str) : str :=
  potential_file_path_of root_dir url ++ lit ".html".

Definition url_base_of (url : str) : str :=
  let url_base := item (split (item (split url "?"%char) 0) "#"%char) 0 in
  if endswith url_base (lit "/") then drop_last url_base else url_base.

Definition suffix_of (url : str) : str :=
  if mem "?"%char url then lit "?" ++ item (split1 url "?"%char) 1
  else if mem "#"%char url then lit "#" ++ item (split1 url "#"%char) 1
  else [].

Definition new_url_of (url : str) : str :=
  url_base_of url ++ lit ".html" ++ suffix_of url.

Definition fix_html_link (fs : FileSystem) (root_dir : str) (m : Match) : str :=
  let full_match := group m 0 in
  let quote := group m 1 in
  let url := group m 2 in
  if negb (startswith url PATH_PREFIX) then full_match
  else
    let clean_path := clean_path_of url in
    match clean_path with
    | [] => full_match
    | _ :: _ =>
      let potential_file_path := potential_file_path_of root_dir url in
      if isdir fs potential_file_path then full_match
      else
        let potential_html := potential_file_path ++ lit ".html" in
        if isfile fs potential_html then
          let new_url := new_url_of url in
          lit "href=" ++ quote ++ new_url ++ quote
        else full_match
    end.

(** *** The passes and [process_content] *)

Definition domain_pass (content : str) : str :=
  replace content OLD_DOMAIN NEW_DOMAIN.

Definition html_pass (content : str) : str :=
  sub true html_pattern replace_callback content.

Definition css_pass (content : str) : str :=
  sub true css_pattern css_callback content.

Definition link_pass (fs : FileSystem) (root_dir : str) (content : str) : str :=
  sub false href_pattern (fix_html_link fs root_dir) content.

Definition process_content (fs : FileSystem) (content root_dir : str) : str :=
  let content := domain_pass content in
  let content := html_pass content in
  let content := css_pass content in
  let content :=
    if FIX_MISSING_HTML_EXTENSION then link_pass fs root_dir content else content in
  content.

(** [a == b] on texts. *)
Definition str_eqb (a b : str) : bool :=
  if list_eq_dec ascii_dec a b then true else false.

(** *** The driver [main]

    [main] is run on the files that [os.walk] lists under the root.  Reading
    or writing a file may raise an exception; the try block of [main]
    catches it and goes on with the next file.  The disk is any type [D]
    with the two operations [main] performs on it.  The probes of the link
    fixer are those of the file system [fs]: writing the text of a file
    that is there neither adds nor removes a file or a directory. *)

Definition TARGET_EXTENSIONS : list str := [lit ".html"].
Definition EXTRA_REPLACEMENTS : list (str * str) := [].

(** [s.lower()] below U+0100. *)
Definition str_lower (s : str) : str := map lower s.

(** [str(n)] for a count. *)
Definition str_of_nat (n : nat) : str := lit (NilEmpty.string_of_uint (Nat.to_uint n)).

(** [repr] of a text without quotes, backslashes or control characters,
    and of lists of such texts and of pairs of them, as the f-strings of
    [main] print the configuration. *)
Definition repr_str (s : str) : str := lit "'" ++ s ++ lit "'".

Fixpoint join_commas (l : list str) : str :=
  match l with
  | [] => []
  | [x] => x
  | x :: l' => x ++ lit ", " ++ join_commas l'
  end.

Definition repr_list (l : list str) : str :=
  lit "[" ++ join_commas (map repr_str l) ++ lit "]".

Definition repr_pairs (l : list (str * str)) : str :=
  lit "[" ++ join_commas (map (fun ab => lit "(" ++ repr_str (fst ab) ++ lit ", "
                                           ++ repr_str (snd ab) ++ lit ")") l)
      ++ lit "]".

(** What an operation on a file comes to: a value, or an exception with its
    message. *)
Inductive outcome (A : Type) : Type :=
| Returned (a : A)
| Raised (e : str).

Arguments Returned {A} a.
Arguments Raised {A} e.

(** The two operations of [main] on the disk: [open(path, 'r').read()], and
    [open(path, 'w').write(text)], which gives the disk as it is left and
    the message of the exception when one is raised. *)
Record FileIO (D : Type) : Type := {
  read_text : D -> str -> outcome str;
  write_text : D -> str -> str -> D * option str
}.

Arguments read_text {D} _ _ _.
Arguments write_text {D} _ _ _ _.

(** The state of a run: the disk, the two counters and the lines printed so
    far. *)
Record Run (D : Type) : Type := {
  run_disk : D;
  processed_count : nat;
  modified_count : nat;
  printed : list str
}.

Arguments run_disk {D} _.
Arguments processed_count {D} _.
Arguments modified_count {D} _.
Arguments printed {D} _.

Definition print {D : Type} (line : str) (st : Run D) : Run D :=
  {| run_disk := run_disk st;
     processed_count := processed_count st;
     modified_count := modified_count st;
     printed := printed st ++ [line] |}.

(** [any(file.lower().endswith(ext) for ext in TARGET_EXTENSIONS)] *)
Definition is_target (file : str) : bool :=
  existsb (fun ext => endswith (str_lower file) ext) TARGET_EXTENSIONS.

(** The body of the inner loop, for one file name of one directory. *)
Definition visit_file {D : Type} (io : FileIO D) (fs : FileSystem) (root_dir root : str)
           (st : Run D) (file : str) : Run D :=
  if is_target file then
    let filepath := os_path_join root file in
    let st := {| run_disk := run_disk st;
                 processed_count := processed_count st + 1;
                 modified_count := modified_count st;
                 printed := printed st |} in
    match read_text io (run_disk st) filepath with
    | Raised e =>
      print (lit "[ERROR] Could not process " ++ filepath ++ lit ": " ++ e) st
    | Returned content =>
      let new_content := process_content fs content root_dir in
      if str_eqb new_content content then st
      else
        match write_text io (run_disk st) filepath new_content with
        | (d, Some e) =>
          print (lit "[ERROR] Could not process " ++ filepath ++ lit ": " ++ e)
                {| run_disk := d;
                   processed_count := processed_count st;
                   modified_count := modified_count st;
                   printed := printed st |}
        | (d, None) =>
          let st := print (lit "[MODIFIED] " ++ filepath)
                          {| run_disk := d;
                             processed_count := processed_count st;
                             modified_count := modified_count st;
                             printed := printed st |} in
          {| run_disk := run_disk st;
             processed_count := processed_count st;
             modified_count := modified_count st + 1;
             printed := printed st |}
        end
    end
  else st.

(** One triple of [os.walk]: the directory, its subdirectories, its files. *)
Definition walk_entry : Type := (str * list str * list str)%type.

Definition visit_dir {D : Type} (io : FileIO D) (fs : FileSystem) (root_dir : str)
           (st : Run D) (entry : walk_entry) : Run D :=
  let '(root, _, files) := entry in
  fold_left (visit_file io fs root_dir root) files st.

(** [main], given the root directory that it computes from [__file__], the
    triples that [os.walk(root_dir)] yields and the disk at the start. *)
Definition main {D : Type} (io : FileIO D) (fs : FileSystem) (root_dir : str)
           (walk : list walk_entry) (d : D) : Run D :=
  let st := {| run_disk := d; processed_count := 0; modified_count := 0; printed := [] |} in
  let st := print (lit "Starting processing in: " ++ root_dir) st in
  let st := print (lit "Target extensions: " ++ repr_list TARGET_EXTENSIONS) st in
  let st := print (lit "Replacing '" ++ OLD_DOMAIN ++ lit "' with '" ++ NEW_DOMAIN ++ lit "'") st in
  let st := print (lit "Fixing typos: " ++ repr_pairs EXTRA_REPLACEMENTS) st in
  let st := print (lit "Prefixing root-relative paths with '" ++ PATH_PREFIX ++ lit "'") st in
  let st :=
    if FIX_MISSING_HTML_EXTENSION
    then print (lit "Fixing missing .html extensions in internal links") st
    else st in
  let st := fold_left (visit_dir io fs root_dir) walk st in
  print ([newline] ++ lit "Done. Scanned " ++ str_of_nat (processed_count st)
           ++ lit " files. Modified " ++ str_of_nat (modified_count st) ++ lit " files.")
        st.

(** ** Vocabulary of the statements

    Sample documents and match objects, file systems given by lists, and
    the notions in which the properties below are worded. *)

(** A path between double quotes, as it stands in a document. *)
Definition quoted (s : str) : str := dquote :: s ++ [dquote].

(** The two regular-expression passes together. *)
Definition path_prefixer (content : str) : str := css_pass (html_pass content).

(** The six attribute names of the HTML pattern. *)
Definition attribute_names : list str :=
  [lit "href="; lit "src="; lit "action="; lit "content="; lit "data-src="; lit "srcset="].

Definition logo_match : Match :=
  [(0, lit "href=" ++ quoted (lit "/images/logo.png")); (3, lit "/images/logo.png");
   (2, [dquote]); (1, lit "href=")].



(** A file system given by the directories and the regular files it holds. *)
Definition fs_of (dirs files : list str) : FileSystem :=
  {| isdir := fun p => existsb (str_eqb p) dirs;
     isfile := fun p => existsb (str_eqb p) files |}.

(** The URL up to its first query or fragment marker. *)
Fixpoint before_marker (url : str) : str :=
  match url with
  | [] => []
  | c :: url' =>
    if Ascii.eqb c "?"%char || Ascii.eqb c "#"%char then [] else c :: before_marker url'
  end.

(** The text after the first [c]. *)
Fixpoint after_first (c : ascii) (s : str) : str :=
  match s with
  | [] => []
  | x :: s' => if Ascii.eqb x c then s' else after_first c s'
  end.

(** One slash taken off the end, when there is one. *)
Definition without_final_slash (s : str) : str :=
  match rev s with
  | c :: r => if Ascii.eqb c "/"%char then rev r else s
  | [] => s
  end.

(** The tail of the URL from its first marker on, whichever of the two
    markers comes first from the left. *)
Fixpoint first_marker_tail (url : str) : str :=
  match url with
  | [] => []
  | c :: url' =>
    if Ascii.eqb c "?"%char || Ascii.eqb c "#"%char then url else first_marker_tail url'
  end.

Fixpoint take_until (c : ascii) (s : str) : str :=
  match s with
  | [] => []
  | x :: s' => if Ascii.eqb x c then [] else x :: take_until c s'
  end.

(** The conditions under which [fix_html_link] rewrites the link [url]. *)
Definition rewritable (fs : FileSystem) (root_dir url : str) : Prop :=
  startswith url PATH_PREFIX = true
  /\ clean_path_of url <> []
  /\ isdir fs (potential_file_path_of root_dir url) = false
  /\ isfile fs (potential_html_of root_dir url) = true.

Definition marker_match : Match :=
  [(0, lit "href=" ++ quoted (lit "/download/a#b?c")); (2, lit "/download/a#b?c");
   (1, [dquote])].

Definition news_match : Match :=
  [(0, lit "href=" ++ quoted (lit "/download/blog/news?x=1"));
   (2, lit "/download/blog/news?x=1"); (1, [dquote])].

Definition news_plain_match : Match :=
  [(0, lit "href=" ++ quoted (lit "/download/blog/news"));
   (2, lit "/download/blog/news"); (1, [dquote])].

Definition sample_page : str :=
  lit "<a href=" ++ quoted (lit "/about") ++ lit ">About</a><img src="
      ++ quoted (lit "http://mychart-app.com/x.png") ++ lit ">".

Definition sample_page_out : str :=
  lit "<a href=" ++ quoted (lit "/download/about.html") ++ lit ">About</a><img src="
      ++ quoted (lit "http://mychart-ap.github.io/download//x.png") ++ lit ">".

(** Every occurrence of [old], taken from the left without overlap, is
    replaced by [new]. *)
Inductive Replaced (old new : str) : str -> str -> Prop :=
| Replaced_nil : Replaced old new [] []
| Replaced_hit (s t : str) :
    Replaced old new s t -> Replaced old new (old ++ s) (new ++ t)
| Replaced_skip (c : ascii) (s t : str) :
    startswith (c :: s) old = false -> Replaced old new s t ->
    Replaced old new (c :: s) (c :: t).

Definition not_newline (c : ascii) : bool := negb (Ascii.eqb c newline).

Definition spaced_match : Match :=
  [(0, lit "href= " ++ quoted (lit "/a")); (3, lit "/a"); (2, [dquote]); (1, lit "href=")].

(** Two words that both read at the head of one text agree as far as the
    shorter goes. *)
Fixpoint agree (ic : bool) (w1 w2 : str) : bool :=
  match w1, w2 with
  | x :: w1', y :: w2' => chr_eq ic x y && agree ic w1' w2'
  | _, _ => true
  end.

Fixpoint take_spaces (t : str) : str :=
  match t with
  | c :: t' => if is_space c then c :: take_spaces t' else []
  | [] => []
  end.

Fixpoint skip_spaces (t : str) : str :=
  match t with
  | c :: t' => if is_space c then skip_spaces t' else t
  | [] => []
  end.

(** An optional quote at the head of [t], and what follows it. *)
Definition after_quote (t : str) : str * str :=
  match t with
  | c :: t' => if is_quote c then ([c], t') else ([], t)
  | [] => ([], [])
  end.

(** [t] reads white space and then a closing bracket. *)
Definition closes_now (t : str) : bool :=
  match skip_spaces t with
  | c :: _ => Ascii.eqb c ")"%char
  | [] => false
  end.

(** [t] reads an optional quote, white space and a closing bracket: the end
    of a [url(...)]. *)
Definition css_closes (t : str) : bool := closes_now (snd (after_quote t)).

Definition is_marker (c : ascii) : bool := Ascii.eqb c "?"%char || Ascii.eqb c "#"%char.

(** No place of [s] reads the old domain. *)
Definition domain_free (s : str) : Prop :=
  forall u t, s = u ++ t -> startswith t OLD_DOMAIN = false.

(** [h] stands in [w] at the end or not at all. *)
Fixpoint only_last (h : ascii) (w : str) : bool :=
  match w with
  | [] => true
  | x :: w' => if Ascii.eqb x h then match w' with [] => true | _ => false end
               else only_last h w'
  end.

(** Some character of [d] differs from the character of [old] at the same
    place. *)
Fixpoint clash (d old : str) : bool :=
  match d, old with
  | c :: d', x :: old' => negb (Ascii.eqb c x) || clash d' old'
  | _, _ => false
  end.

(** The non-empty tails of a text. *)
Fixpoint tails (s : str) : list str :=
  match s with
  | [] => []
  | _ :: s' => s :: tails s'
  end.

(** A page on which the second run differs from the first: the white space
    dropped from the inner attribute held a line break, so on the second run
    the outer attribute reaches its closing quote. *)
Definition merging_page : str :=
  lit "src='/x src=" ++ [newline] ++ quoted (lit "/a") ++ lit "'".

(** *** Vocabulary of the further properties *)

(** Nothing, or one quote. *)
Definition opt_quote (q : str) : bool :=
  match q with
  | [] => true
  | [c] => is_quote c
  | _ => false
  end.

(** A character that is no quote, no white space and no closing bracket,
    and does not break the line. *)
Definition plain_char (c : ascii) : bool :=
  negb (is_quote c) && negb (is_space c) && negb (Ascii.eqb c ")"%char) && not_newline c.

(** [t] is [s] with the prefix put in front of some of its slashes. *)
Inductive Inserted : str -> str -> Prop :=
| Inserted_nil : Inserted [] []
| Inserted_keep (c : ascii) (s t : str) : Inserted s t -> Inserted (c :: s) (c :: t)
| Inserted_prefix (s t : str) :
    Inserted s t -> Inserted ("/"%char :: s) (PATH_PREFIX ++ "/"%char :: t).

(** [t] is [s] where, at some quotes that open a path, the white space in
    front of the quote is dropped and the prefix is put after the quote. *)
Inductive Edited : str -> str -> Prop :=
| Edited_nil : Edited [] []
| Edited_keep (c : ascii) (s t : str) : Edited s t -> Edited (c :: s) (c :: t)
| Edited_rewrite (ws : str) (qc : ascii) (s t : str) :
    forallb is_space ws = true -> is_quote qc = true -> Edited s t ->
    Edited (ws ++ qc :: "/"%char :: s) (qc :: PATH_PREFIX ++ "/"%char :: t).

Definition is_slash (c : ascii) : bool := Ascii.eqb c "/"%char.

(** The paths of the files that [main] processes, in the order of the walk. *)
Definition target_files (walk : list walk_entry) : list str :=
  flat_map (fun entry : walk_entry =>
              let '(root, _, files) := entry in
              map (os_path_join root) (filter is_target files)) walk.

(** What a path holds after a run in which every write succeeds: a target
    that could be read holds its text after [process_content]; any other
    path is as before. *)
Definition after_run {D : Type} (io : FileIO D) (fs : FileSystem) (root_dir : str)
           (targets : list str) (d : D) (p : str) : outcome str :=
  if in_dec (list_eq_dec ascii_dec) p targets then
    match read_text io d p with
    | Returned c => Returned (process_content fs c root_dir)
    | Raised e => Raised e
    end
  else read_text io d p.

(** A disk kept as a list of paths with their texts, on which every write
    succeeds. *)
Definition list_io : FileIO (list (str * str)) :=
  {| read_text := fun d p =>
       match find (fun e => str_eqb (fst e) p) d with
       | Some e => Returned (snd e)
       | None => Raised (lit "No such file or directory")
       end;
     write_text := fun d p c => ((p, c) :: d, None) |}.

(** The visits of the two nested loops, one after the other. *)
Definition visits (walk : list walk_entry) : list (str * str) :=
  flat_map (fun entry : walk_entry =>
              let '(root, _, files) := entry in map (pair root) files) walk.

Definition visit {D : Type} (io : FileIO D) (fs : FileSystem) (root_dir : str)
           (st : Run D) (v : str * str) : Run D :=
  visit_file io fs root_dir (fst v) st (snd v).

(** A target file whose text [process_content] changes. *)
Definition changes {D : Type} (io : FileIO D) (fs : FileSystem) (root_dir : str)
           (d : D) (p : str) : bool :=
  match read_text io d p with
  | Returned c => negb (str_eqb (process_content fs c root_dir) c)
  | Raised _ => false
  end.

(** The paths of the target files among the visits. *)
Definition targets_of (l : list (str * str)) : list str :=
  map (fun v => os_path_join (fst v) (snd v)) (filter (fun v => is_target (snd v)) l).

(** A small site: one page to rewrite, one page that stays, one image. *)
Definition sample_walk : list walk_entry :=
  [(lit "/site", [lit "blog"], [lit "index.html"; lit "logo.png"]);
   (lit "/site/blog", [], [lit "News.HTML"])].

Definition sample_disk : list (str * str) :=
  [(lit "/site/index.html", lit "<a href='/blog/News'>news</a>");
   (lit "/site/logo.png", lit "href='/x'");
   (lit "/site/blog/News.HTML", lit "plain text")].

Definition sample_fs : FileSystem :=
  fs_of [lit "/site"; lit "/site/blog"]
        [lit "/site/index.html"; lit "/site/logo.png"; lit "/site/blog/News.HTML"].

(** [t] is [s] where some links that [fix_html_link] rewrites are replaced
    by their completed form. *)
Inductive Relinked (fs : FileSystem) (root_dir : str) : str -> str -> Prop :=
| Relinked_nil : Relinked fs root_dir [] []
| Relinked_keep (c : ascii) (s t : str) :
    Relinked fs root_dir s t -> Relinked fs root_dir (c :: s) (c :: t)
| Relinked_fix (qc : ascii) (url s t : str) :
    is_quote qc = true -> rewritable fs root_dir url -> Relinked fs root_dir s t ->
    Relinked fs root_dir (lit "href=" ++ qc :: url ++ qc :: s)
             (lit "href=" ++ qc :: new_url_of url ++ qc :: t).

(** ** Facts about text *)

Section TextFacts.

Lemma startswith_app (p t : str) : startswith (p ++ t) p = true.
Proof.
  induction p as [|x p IH]; simpl; [reflexivity|].
  now rewrite Ascii.eqb_refl, IH.
Qed.

Lemma startswith_inv (p s : str) :
  startswith s p = true -> exists t, s = p ++ t.
Proof.
  revert s. induction p as [|x p IH]; intros s H; simpl in *.
  - now exists s.
  - destruct s as [|c s]; [discriminate|].
    apply andb_true_iff in H as [Hc Hs].
    apply Ascii.eqb_eq in Hc. subst c.
    destruct (IH _ Hs) as [t ->]. now exists t.
Qed.

Lemma strip_prefix_startswith (p s : str) :
  strip_prefix p s = None <-> startswith s p = false.
Proof.
  revert s. induction p as [|x p IH]; intros s; simpl.
  - split; discriminate.
  - destruct s as [|c s]; [tauto|].
    destruct (Ascii.eqb c x); simpl; [apply IH | tauto].
Qed.

Lemma strip_prefix_inv (p s rest : str) :
  strip_prefix p s = Some rest -> s = p ++ rest.
Proof.
  revert s. induction p as [|x p IH]; intros s H; simpl in *.
  - now inversion H.
  - destruct s as [|c s]; [discriminate|].
    destruct (Ascii.eqb_spec c x); [|discriminate].
    subst c. now rewrite (IH _ H).
Qed.

Lemma strip_prefix_app (p t : str) : strip_prefix p (p ++ t) = Some t.
Proof.
  induction p as [|x p IH]; simpl; [reflexivity|].
  now rewrite Ascii.eqb_refl.
Qed.

Lemma consumed_app (u t : str) : consumed (u ++ t) t = u.
Proof.
  unfold consumed. rewrite length_app.
  replace (length u + length t - length t) with (length u) by lia.
  rewrite firstn_app, firstn_all, Nat.sub_diag. simpl. apply app_nil_r.
Qed.

End TextFacts.

(** ** Facts about the matcher *)

Section RunFacts.

Context {R : Type}.
Variable ic : bool.

Lemma star_greedy_inv (c : cclass) (s : str) (k : str -> option R) (x : R) :
  star_greedy ic c s k = Some x ->
  exists u t, s = u ++ t /\ forallb (accepts ic c) u = true /\ k t = Some x.
Proof.
  induction s as [|a s IH]; simpl; intros H.
  - now exists [], [].
  - destruct (accepts ic c a) eqn:Ha.
    + destruct (star_greedy ic c s k) eqn:Hs.
      * inversion H; subst r.
        destruct (IH eq_refl) as (u & t & -> & Hu & Hk).
        exists (a :: u), t. simpl. now rewrite Ha, Hu.
      * now exists [], (a :: s).
    + now exists [], (a :: s).
Qed.

(** A lazy star stops at the first place where the rest of the pattern
    matches. *)
Lemma star_lazy_inv (c : cclass) (s : str) (k : str -> option R) (x : R) :
  star_lazy ic c s k = Some x ->
  exists u t, s = u ++ t /\ forallb (accepts ic c) u = true /\ k t = Some x /\
    forall u1 u2, u = u1 ++ u2 -> u2 <> [] -> k (u2 ++ t) = None.
Proof.
  induction s as [|a s IH]; simpl; intros H.
  - destruct (k []) eqn:Hk; [|discriminate].
    exists [], []. split; [reflexivity|]. split; [reflexivity|]. split; [now rewrite <- H|].
    intros u1 u2 E. now destruct u1, u2.
  - destruct (k (a :: s)) eqn:Hk.
    + exists [], (a :: s).
      split; [reflexivity|]. split; [reflexivity|]. split; [now rewrite <- H|].
      intros u1 u2 E. now destruct u1, u2.
    + destruct (accepts ic c a) eqn:Ha; [|discriminate].
      destruct (IH H) as (u & t & -> & Hu & Hx & Hmin).
      exists (a :: u), t. simpl. rewrite Ha, Hu.
      split; [reflexivity|]. split; [reflexivity|]. split; [exact Hx|].
      intros u1 u2 E Hne. destruct u1 as [|b u1]; simpl in E.
      * now subst u2.
      * inversion E; subst. now apply (Hmin u1 u2).
Qed.

Lemma strip_same_inv (w s t : str) :
  strip_same ic w s = Some t ->
  exists a, s = a ++ t /\ length a = length w /\ strip_same ic w a = Some [].
Proof.
  revert s. induction w as [|x w IH]; intros s H; simpl in *.
  - inversion H. now exists [].
  - destruct s as [|c s]; [discriminate|].
    destruct (chr_eq ic x c) eqn:Hc; [|discriminate].
    destruct (IH _ H) as (a & -> & Hl & Ha).
    exists (c :: a). simpl. now rewrite Hc, Hl.
Qed.

Lemma strip_same_app (w a t : str) :
  strip_same ic w a = Some [] -> strip_same ic w (a ++ t) = Some t.
Proof.
  revert a. induction w as [|x w IH]; intros a H; simpl in *.
  - destruct a; [reflexivity | discriminate].
  - destruct a as [|c a]; [discriminate|]. simpl.
    destruct (chr_eq ic x c); [now apply IH | discriminate].
Qed.

Lemma run_word (w s : str) (g : groups) (k : str -> groups -> option R) :
  run ic (word w) s g k =
  match strip_same ic w s with
  | Some t => k t g
  | None => None
  end.
Proof.
  revert s. induction w as [|x w IH]; intros s; simpl; [reflexivity|].
  destruct s as [|c s]; [reflexivity|].
  unfold accepts. destruct (chr_eq ic x c); [apply IH | reflexivity].
Qed.

(** Whatever way a pattern matches, it consumes a prefix of the text. *)
Lemma run_suffix (r : regex) :
  forall s g k (x : R), run ic r s g k = Some x ->
  exists u t g', s = u ++ t /\ k t g' = Some x.
Proof.
  induction r as [|c|r1 IH1 r2 IH2|r1 IH1 r2 IH2|c|c|c|n r1 IH1|n];
    intros s g k x H; simpl in H.
  - now exists [], s, g.
  - destruct s as [|a s]; [discriminate|].
    destruct (accepts ic c a); [|discriminate]. now exists [a], s, g.
  - apply IH1 in H as (u1 & t1 & g1 & -> & H).
    apply IH2 in H as (u2 & t2 & g2 & -> & H).
    exists (u1 ++ u2), t2, g2. now rewrite app_assoc.
  - destruct (run ic r1 s g k) eqn:H1.
    + inversion H; subst r. now apply IH1 in H1.
    + now apply IH2 in H.
  - apply star_greedy_inv in H as (u & t & -> & _ & H). now exists u, t, g.
  - apply star_lazy_inv in H as (u & t & -> & _ & H & _). now exists u, t, g.
  - destruct s as [|a s]; [now exists [], [], g|].
    destruct (accepts ic c a); [|now exists [], (a :: s), g].
    destruct (k s g) eqn:Hk.
    + inversion H; subst r. now exists [a], s, g.
    + now exists [], (a :: s), g.
  - apply IH1 in H as (u & t & g' & -> & H). now exists u, t, (bind n (consumed (u ++ t) t) g').
  - destruct (lookup n g) as [w|]; [|discriminate].
    destruct (strip_same ic w s) as [t|] eqn:Hw; [|discriminate].
    apply strip_same_inv in Hw as (a & -> & _). now exists a, t, g.
Qed.

End RunFacts.

(** [group(0)] is the text that was consumed. *)
Lemma match_at_full (ic : bool) (r : regex) (s : str) (m : Match) (rest : str) :
  match_at ic r s = Some (m, rest) -> s = group m 0 ++ rest.
Proof.
  unfold match_at. intros H.
  apply run_suffix in H as (u & t & g' & -> & H).
  inversion H; subst. unfold group. simpl. now rewrite consumed_app.
Qed.

(** A pass whose callback gives back [group(0)] at every match it is called
    on leaves the text as it is. *)
Lemma sub_scan_unchanged (ic : bool) (r : regex) (repl : Match -> str) :
  forall fuel s,
  length s < fuel ->
  (forall u t m rest, s = u ++ t -> match_at ic r t = Some (m, rest) ->
                      repl m = group m 0) ->
  sub_scan fuel ic r repl s = s.
Proof.
  induction fuel as [|fuel IH]; intros s Hlen Hid; [lia|]. simpl.
  destruct (match_at ic r s) as [[m rest]|] eqn:Hm.
  - pose proof (match_at_full _ _ _ _ _ Hm) as Hs.
    rewrite (Hid [] s m rest eq_refl Hm).
    destruct (length rest <? length s) eqn:Hlt.
    + apply Nat.ltb_lt in Hlt. rewrite IH.
      * now symmetry.
      * lia.
      * intros u t m' rest' E. apply (Hid (group m 0 ++ u) t).
        rewrite Hs at 1. rewrite E. now rewrite app_assoc.
    + apply Nat.ltb_ge in Hlt.
      assert (group m 0 = []) as E0.
      { apply (f_equal (@length _)) in Hs. rewrite length_app in Hs.
        destruct (group m 0); [reflexivity | simpl in Hs; lia]. }
      rewrite E0. simpl. destruct s as [|c s]; [reflexivity|].
      f_equal. apply IH; [simpl in Hlen; lia|].
      intros u t m' rest' E. apply (Hid (c :: u) t). now rewrite E.
  - destruct s as [|c s]; [reflexivity|].
    f_equal. apply IH; [simpl in Hlen; lia|].
    intros u t m' rest' E. apply (Hid (c :: u) t). now rewrite E.
Qed.

(** The scan never runs out of fuel: any fuel above the length of the text
    gives the same result. *)
Lemma sub_scan_fuel (ic : bool) (r : regex) (repl : Match -> str) :
  forall f1 f2 s, length s < f1 -> length s < f2 ->
  sub_scan f1 ic r repl s = sub_scan f2 ic r repl s.
Proof.
  induction f1 as [|f1 IH]; intros f2 s H1 H2; [lia|].
  destruct f2 as [|f2]; [lia|]. simpl.
  destruct (match_at ic r s) as [[m rest]|] eqn:Hm.
  - destruct (length rest <? length s) eqn:Hlt.
    + apply Nat.ltb_lt in Hlt. f_equal. apply IH; lia.
    + destruct s as [|c s]; [reflexivity|]. simpl in H1, H2.
      do 2 f_equal. apply IH; lia.
  - destruct s as [|c s]; [reflexivity|]. simpl in H1, H2.
    f_equal. apply IH; lia.
Qed.

Lemma sub_match (ic : bool) (r : regex) (repl : Match -> str) (s : str)
      (m : Match) (rest : str) :
  match_at ic r s = Some (m, rest) -> length rest < length s ->
  sub ic r repl s = repl m ++ sub ic r repl rest.
Proof.
  intros Hm Hlt. unfold sub.
  change (sub_scan (S (length s)) ic r repl s)
    with (match match_at ic r s with
          | Some (m, rest) =>
            if length rest <? length s
            then repl m ++ sub_scan (length s) ic r repl rest
            else match s with
                 | [] => repl m
                 | c :: s' => repl m ++ c :: sub_scan (length s) ic r repl s'
                 end
          | None =>
            match s with
            | [] => []
            | c :: s' => c :: sub_scan (length s) ic r repl s'
            end
          end).
  rewrite Hm. apply Nat.ltb_lt in Hlt as Hb. rewrite Hb.
  f_equal. apply sub_scan_fuel; lia.
Qed.

Lemma sub_skip (ic : bool) (r : regex) (repl : Match -> str) (c : ascii) (s : str) :
  match_at ic r (c :: s) = None ->
  sub ic r repl (c :: s) = c :: sub ic r repl s.
Proof.
  intros Hm. unfold sub.
  change (sub_scan (S (length (c :: s))) ic r repl (c :: s))
    with (match match_at ic r (c :: s) with
          | Some (m, rest) =>
            if length rest <? length (c :: s)
            then repl m ++ sub_scan (length (c :: s)) ic r repl rest
            else repl m ++ c :: sub_scan (length (c :: s)) ic r repl s
          | None => c :: sub_scan (length (c :: s)) ic r repl s
          end).
  now rewrite Hm.
Qed.

Lemma sub_unchanged (ic : bool) (r : regex) (repl : Match -> str) (s : str) :
  (forall u t m rest, s = u ++ t -> match_at ic r t = Some (m, rest) ->
                      repl m = group m 0) ->
  sub ic r repl s = s.
Proof. intros H. apply sub_scan_unchanged; [lia | exact H]. Qed.

(** ** The callbacks of the path prefixer *)

Lemma process_content_passes (fs : FileSystem) (content root_dir : str) :
  process_content fs content root_dir =
  link_pass fs root_dir (path_prefixer (domain_pass content)).
Proof. reflexivity. Qed.

Lemma startswith_longer (s p t : str) :
  startswith s p = false -> startswith s (p ++ t) = false.
Proof.
  revert s. induction p as [|x p IH]; intros s H; simpl in *; [discriminate|].
  destruct s as [|c s]; [reflexivity|].
  destruct (Ascii.eqb c x); simpl in *; [now apply IH | reflexivity].
Qed.

Lemma clean_prefix_eq : rstrip PATH_PREFIX (lit "/") = lit "/download".
Proof. reflexivity. Qed.

Lemma replace_callback_rewrites (m : Match) :
  startswith (group m 3) (lit "//") = false ->
  startswith (group m 3) PATH_PREFIX = false ->
  replace_callback m
  = group m 1 ++ group m 2 ++ (lit "/download" ++ group m 3) ++ group m 2.
Proof.
  intros H2 H3. unfold replace_callback.
  assert (startswith (group m 3) (rstrip PATH_PREFIX (lit "/") ++ lit "/") = false) as H3'
    by exact (startswith_longer _ PATH_PREFIX (lit "/") H3).
  now rewrite H2, H3, H3'.
Qed.

Lemma css_callback_rewrites (m : Match) :
  startswith (group m 3) (lit "//") = false ->
  startswith (group m 3) PATH_PREFIX = false ->
  css_callback m
  = group m 1 ++ group m 2 ++ (lit "/download" ++ group m 3) ++ group m 4 ++ group m 5.
Proof. intros H2 H3. unfold css_callback. now rewrite H2, H3. Qed.

(** ** The link extension fixer *)

Lemma split_head (s : str) (c : ascii) : item (split s c) 0 = take_until c s.
Proof.
  induction s as [|x s IH]; simpl; [reflexivity|].
  destruct (Ascii.eqb x c); [reflexivity|].
  rewrite <- IH. now destruct (split s c).
Qed.

Lemma take_until_twice (s : str) :
  take_until "#"%char (take_until "?"%char s) = before_marker s.
Proof.
  induction s as [|x s IH]; simpl; [reflexivity|].
  destruct (Ascii.eqb x "?"%char); simpl; [reflexivity|].
  destruct (Ascii.eqb x "#"%char); simpl; [reflexivity|].
  now rewrite IH.
Qed.

Lemma split1_tail (s : str) (c : ascii) : item (split1 s c) 1 = after_first c s.
Proof.
  induction s as [|x s IH]; simpl; [reflexivity|].
  destruct (Ascii.eqb x c); [reflexivity|].
  rewrite <- IH. now destruct (split1 s c).
Qed.

Lemma drop_final_slash (s : str) :
  (if endswith s (lit "/") then drop_last s else s) = without_final_slash s.
Proof.
  unfold endswith, without_final_slash, drop_last.
  destruct (rev s) as [|c r] eqn:E; simpl; [reflexivity|].
  rewrite andb_true_r. destruct (Ascii.eqb c "/"%char); [|reflexivity].
  apply (f_equal (@rev _)) in E. rewrite rev_involutive in E. simpl in E.
  subst s. apply removelast_last.
Qed.

Lemma url_base_spec (url : str) :
  url_base_of url = without_final_slash (before_marker url).
Proof.
  unfold url_base_of. rewrite !split_head, take_until_twice. apply drop_final_slash.
Qed.

Lemma suffix_spec (url : str) :
  suffix_of url =
  if mem "?"%char url then "?"%char :: after_first "?"%char url
  else if mem "#"%char url then "#"%char :: after_first "#"%char url
  else [].
Proof. unfold suffix_of. now rewrite !split1_tail. Qed.

Lemma fix_html_link_rewrites (fs : FileSystem) (root_dir : str) (m : Match) :
  rewritable fs root_dir (group m 2) ->
  fix_html_link fs root_dir m
  = lit "href=" ++ group m 1 ++ new_url_of (group m 2) ++ group m 1.
Proof.
  intros (Hp & Hc & Hd & Hf). unfold fix_html_link. rewrite Hp. simpl negb. cbv iota.
  destruct (clean_path_of (group m 2)) eqn:E; [congruence|].
  rewrite Hd. unfold potential_html_of in Hf. now rewrite Hf.
Qed.

Lemma fix_html_link_guard (fs : FileSystem) (root_dir : str) (m : Match) :
  isfile fs (potential_html_of root_dir (group m 2)) = false
  \/ isdir fs (potential_file_path_of root_dir (group m 2)) = true ->
  fix_html_link fs root_dir m = group m 0.
Proof.
  intros H. unfold fix_html_link.
  destruct (negb (startswith (group m 2) PATH_PREFIX)); [reflexivity|].
  destruct (clean_path_of (group m 2)); [reflexivity|].
  destruct (isdir fs (potential_file_path_of root_dir (group m 2))) eqn:Hd; [reflexivity|].
  destruct H as [H|H]; [|discriminate].
  unfold potential_html_of in H. now rewrite H.
Qed.

(** ** The domain substitutor *)

Section Replace.

Variables (old new : str).
Hypothesis old_nonempty : old <> [].

Lemma replace_scan_fuel :
  forall f1 f2 s, length s <= f1 -> length s <= f2 ->
  replace_scan f1 s old new = replace_scan f2 s old new.
Proof.
  induction f1 as [|f1 IH]; intros f2 s H1 H2.
  - destruct s; [|simpl in H1; lia]. destruct f2; simpl; [reflexivity|].
    destruct old; [congruence | reflexivity].
  - destruct f2 as [|f2].
    + destruct s; [|simpl in H2; lia]. simpl.
      destruct old; [congruence | reflexivity].
    + simpl. destruct (strip_prefix old s) as [rest|] eqn:E.
      * apply strip_prefix_inv in E. subst s. rewrite length_app in H1, H2.
        assert (0 < length old) by (destruct old; [congruence | simpl; lia]).
        f_equal. apply IH; lia.
      * destruct s as [|c s]; [reflexivity|]. simpl in H1, H2.
        f_equal. apply IH; lia.
Qed.

Lemma replace_unfold (s : str) :
  replace s old new = replace_scan (length s) s old new.
Proof. unfold replace. destruct old; [congruence | reflexivity]. Qed.

Lemma old_length : 0 < length old.
Proof. destruct old; [congruence | simpl; lia]. Qed.

Lemma replace_nil : replace [] old new = [].
Proof. rewrite replace_unfold. reflexivity. Qed.

Lemma replace_hit (s : str) : replace (old ++ s) old new = new ++ replace s old new.
Proof.
  rewrite !replace_unfold. pose proof old_length as L.
  rewrite length_app. destruct (length old + length s) as [|n] eqn:E; [lia|].
  simpl replace_scan. rewrite strip_prefix_app.
  f_equal. apply replace_scan_fuel; lia.
Qed.

Lemma replace_skip (c : ascii) (s : str) :
  startswith (c :: s) old = false ->
  replace (c :: s) old new = c :: replace s old new.
Proof.
  intros H. rewrite !replace_unfold.
  simpl length. simpl replace_scan.
  apply strip_prefix_startswith in H. now rewrite H.
Qed.

Lemma replace_Replaced (s : str) : Replaced old new s (replace s old new).
Proof.
  remember (length s) as n eqn:Hn. revert s Hn.
  induction n as [n IH] using lt_wf_ind. intros s Hn.
  destruct (startswith s old) eqn:E.
  - apply startswith_inv in E as [t ->]. rewrite replace_hit.
    apply Replaced_hit. apply (IH (length t)); [|reflexivity].
    pose proof old_length. rewrite Hn, length_app. lia.
  - destruct s as [|c s].
    + rewrite replace_nil. constructor.
    + rewrite (replace_skip _ _ E). apply Replaced_skip; [exact E|].
      apply (IH (length s)); [subst n; simpl; lia | reflexivity].
Qed.

Lemma Replaced_unique (s t : str) : Replaced old new s t -> t = replace s old new.
Proof.
  induction 1 as [|s t _ IH|c s t Hc _ IH].
  - now rewrite replace_nil.
  - now rewrite replace_hit, IH.
  - now rewrite (replace_skip _ _ Hc), IH.
Qed.

End Replace.

Lemma OLD_DOMAIN_nonempty : OLD_DOMAIN <> [].
Proof. discriminate. Qed.

(** ** What the patterns match *)

Lemma consumed_eq (s u t : str) : s = u ++ t -> consumed s t = u.
Proof. intros ->. apply consumed_app. Qed.

Lemma strip_same_exact (w s t : str) :
  strip_same false w s = Some t -> s = w ++ t.
Proof.
  revert s. induction w as [|x w IH]; intros s H; simpl in *.
  - now inversion H.
  - destruct s as [|c s]; [discriminate|]. unfold chr_eq in H.
    destruct (Ascii.eqb_spec c x); [|discriminate]. subst c. now rewrite (IH _ H).
Qed.

Lemma run_alt_words {R : Type} (ic : bool) (ws : list str) (last : str)
      (s : str) (g : groups) (k : str -> groups -> option R) (x : R) :
  run ic (alt (map word ws) (word last)) s g k = Some x ->
  exists w t, In w (ws ++ [last]) /\ strip_same ic w s = Some t /\ k t g = Some x.
Proof.
  induction ws as [|w ws IH]; simpl.
  - rewrite run_word. destruct (strip_same ic last s) as [t|] eqn:E; [|discriminate].
    intros H. exists last, t. auto.
  - rewrite run_word. destruct (strip_same ic w s) as [t|] eqn:E.
    + destruct (k t g) eqn:Hk.
      * intros H. inversion H; subst r. exists w, t. auto.
      * intros H. destruct (IH H) as (w' & t' & Hin & Hw & Hk').
        exists w', t'. auto.
    + intros H. destruct (IH H) as (w' & t' & Hin & Hw & Hk').
      exists w', t'. auto.
Qed.

(** Case folding leaves the quotes, the slash and the closing bracket to
    themselves. *)
Lemma chr_eq_quote (ic : bool) (qc c : ascii) :
  is_quote qc = true -> chr_eq ic qc c = Ascii.eqb c qc.
Proof.
  intros Hq. destruct ic; [|reflexivity]. unfold is_quote in Hq.
  apply orb_true_iff in Hq as [Hq|Hq]; apply Ascii.eqb_eq in Hq; subst qc;
    destruct c as [[] [] [] [] [] [] [] []]; reflexivity.
Qed.

Lemma chr_eq_slash (ic : bool) (c : ascii) :
  chr_eq ic "/"%char c = Ascii.eqb c "/"%char.
Proof.
  destruct ic; [|reflexivity].
  destruct c as [[] [] [] [] [] [] [] []]; reflexivity.
Qed.

Lemma chr_eq_close (ic : bool) (c : ascii) :
  chr_eq ic ")"%char c = Ascii.eqb c ")"%char.
Proof.
  destruct ic; [|reflexivity].
  destruct c as [[] [] [] [] [] [] [] []]; reflexivity.
Qed.

(** A match of the HTML pattern: an attribute name in any case, white space,
    a quote, a path that starts with a slash and holds neither that quote nor
    a line break, and the quote again. *)
Lemma html_match_inv (s : str) (m : Match) (rest : str) :
  match_at true html_pattern s = Some (m, rest) ->
  exists name a ws qc u,
    In name attribute_names /\ strip_same true name a = Some []
    /\ forallb is_space ws = true /\ is_quote qc = true
    /\ forallb not_newline u = true /\ ~ In qc u
    /\ s = a ++ ws ++ qc :: "/"%char :: u ++ qc :: rest
    /\ m = [(0, a ++ ws ++ qc :: "/"%char :: u ++ [qc]); (3, "/"%char :: u);
            (2, [qc]); (1, a)].
Proof.
  unfold match_at, html_pattern. cbn [run].
  change (alt _ _) with
    (alt (map word [lit "href="; lit "src="; lit "action="; lit "content="; lit "data-src="])
         (word (lit "srcset="))).
  intros H. apply run_alt_words in H as (name & t & Hin & Hname & H).
  apply strip_same_inv in Hname as (a & -> & _ & Ha).
  rewrite consumed_app in H.
  apply star_greedy_inv in H as (ws & t1 & -> & Hws & H).
  destruct t1 as [|qc t2]; [discriminate|].
  cbn [accepts] in H. destruct (is_quote qc) eqn:Hq; [|discriminate].
  destruct t2 as [|c t3]; [discriminate|].
  rewrite chr_eq_slash in H. destruct (Ascii.eqb_spec c "/"%char); [|discriminate]. subst c.
  apply star_lazy_inv in H as (u & t4 & -> & Hu & H & Hmin).
  rewrite (consumed_eq (qc :: "/"%char :: u ++ t4) [qc] ("/"%char :: u ++ t4) eq_refl) in H, Hmin.
  cbn [lookup bind Nat.eqb] in H, Hmin.
  cbn [strip_same] in H. destruct t4 as [|c t5]; [discriminate|].
  rewrite (chr_eq_quote _ _ _ Hq) in H.
  destruct (Ascii.eqb_spec c qc); [|discriminate]. subst c.
  inversion H; subst m rest. clear H.
  exists name, a, ws, qc, u.
  split; [exact Hin|]. split; [exact Ha|]. split; [exact Hws|]. split; [exact Hq|].
  split; [exact Hu|]. split.
  - intros Hin'. apply in_split in Hin' as (u1 & u2 & ->).
    specialize (Hmin u1 (qc :: u2) eq_refl ltac:(discriminate)).
    cbn [strip_same app] in Hmin.
    rewrite (chr_eq_quote _ _ _ Hq), Ascii.eqb_refl in Hmin. discriminate.
  - split; [reflexivity|].
    unfold bind. f_equal; [|f_equal].
    + f_equal. apply consumed_eq.
      rewrite <- !app_assoc. simpl. now rewrite <- app_assoc.
    + f_equal. apply (consumed_eq _ ("/"%char :: u) (qc :: t5)). reflexivity.
Qed.

Lemma strip_same_snoc (ic : bool) (w : str) (x : ascii) (a : str) :
  strip_same ic (w ++ [x]) a = Some [] ->
  exists a' c, a = a' ++ [c] /\ chr_eq ic x c = true /\ strip_same ic w a' = Some [].
Proof.
  revert a. induction w as [|y w IH]; intros a H; simpl in *.
  - destruct a as [|c a]; [discriminate|].
    destruct (chr_eq ic x c) eqn:E; [|discriminate].
    destruct a; [|discriminate]. now exists [], c.
  - destruct a as [|c a]; [discriminate|].
    destruct (chr_eq ic y c) eqn:E; [|discriminate].
    destruct (IH _ H) as (a' & c' & -> & Hc & Ha).
    exists (c :: a'), c'. simpl. now rewrite E.
Qed.

Lemma chr_eq_equals (ic : bool) (c : ascii) :
  chr_eq ic "="%char c = Ascii.eqb c "="%char.
Proof.
  destruct ic; [|reflexivity].
  destruct c as [[] [] [] [] [] [] [] []]; reflexivity.
Qed.

Lemma attribute_name_ends (name a : str) :
  In name attribute_names -> strip_same true name a = Some [] ->
  exists a', a = a' ++ lit "=".
Proof.
  intros Hin Ha.
  assert (exists w, name = w ++ ["="%char]) as [w ->].
  { simpl in Hin.
    destruct Hin as [<-|[<-|[<-|[<-|[<-|[<-|[]]]]]]];
      [exists (lit "href") | exists (lit "src") | exists (lit "action")
       | exists (lit "content") | exists (lit "data-src") | exists (lit "srcset")];
      reflexivity. }
  apply strip_same_snoc in Ha as (a' & c & -> & Hc & _).
  rewrite chr_eq_equals in Hc. apply Ascii.eqb_eq in Hc. subst c. now exists a'.
Qed.

Lemma href_match_inv (s : str) (m : Match) (rest : str) :
  match_at false href_pattern s = Some (m, rest) ->
  exists qc url,
    is_quote qc = true /\ forallb not_newline url = true /\ ~ In qc url
    /\ s = lit "href=" ++ qc :: url ++ qc :: rest
    /\ m = [(0, lit "href=" ++ qc :: url ++ [qc]); (2, url); (1, [qc])].
Proof.
  unfold match_at, href_pattern. cbn [run]. rewrite run_word.
  destruct (strip_same false (lit "href=") s) as [t|] eqn:E; [|discriminate].
  apply strip_same_exact in E. subst s.
  destruct t as [|qc t2]; [discriminate|].
  cbn [accepts]. destruct (is_quote qc) eqn:Hq; [|discriminate].
  intros H. apply star_lazy_inv in H as (u & t4 & -> & Hu & H & Hmin).
  rewrite (consumed_eq (qc :: u ++ t4) [qc] (u ++ t4) eq_refl) in H, Hmin.
  cbn [lookup bind Nat.eqb] in H, Hmin.
  cbn [strip_same] in H. destruct t4 as [|c t5]; [discriminate|].
  rewrite (chr_eq_quote _ _ _ Hq) in H.
  destruct (Ascii.eqb_spec c qc); [|discriminate]. subst c.
  inversion H; subst m rest. clear H.
  exists qc, u.
  split; [exact Hq|]. split; [exact Hu|]. split.
  - intros Hin'. apply in_split in Hin' as (u1 & u2 & ->).
    specialize (Hmin u1 (qc :: u2) eq_refl ltac:(discriminate)).
    cbn [strip_same app] in Hmin.
    rewrite (chr_eq_quote _ _ _ Hq), Ascii.eqb_refl in Hmin. discriminate.
  - split; [reflexivity|].
    unfold bind. f_equal; [|f_equal].
    + f_equal. apply consumed_eq. simpl. now rewrite <- app_assoc.
    + f_equal. apply (consumed_eq _ u (qc :: t5)). reflexivity.
Qed.

(** ** Matching a text of known shape *)

Section RunIntro.

Context {R : Type}.
Variable ic : bool.

Lemma star_greedy_all (c : cclass) (u t : str) (k : str -> option R) :
  (forall a t', accepts ic c a = true -> k (a :: t') = None) ->
  forallb (accepts ic c) u = true ->
  star_greedy ic c (u ++ t) k = star_greedy ic c t k.
Proof.
  intros Hk. induction u as [|a u IH]; intros Hu; simpl in *; [reflexivity|].
  apply andb_true_iff in Hu as [Ha Hu]. rewrite Ha, (IH Hu), (Hk _ _ Ha).
  now destruct (star_greedy ic c t k).
Qed.

Lemma star_greedy_stop (c : cclass) (a : ascii) (t : str) (k : str -> option R) :
  accepts ic c a = false -> star_greedy ic c (a :: t) k = k (a :: t).
Proof. intros Ha. simpl. now rewrite Ha. Qed.

Lemma star_lazy_first (c : cclass) (u t : str) (k : str -> option R) (x : R) :
  forallb (accepts ic c) u = true ->
  (forall u1 u2, u = u1 ++ u2 -> u2 <> [] -> k (u2 ++ t) = None) ->
  k t = Some x ->
  star_lazy ic c (u ++ t) k = Some x.
Proof.
  intros Hu Hmin Hk. induction u as [|a u IH]; simpl in *.
  - destruct t; simpl; now rewrite Hk.
  - apply andb_true_iff in Hu as [Ha Hu].
    pose proof (Hmin [] (a :: u) eq_refl ltac:(discriminate)) as H0.
    simpl in H0. rewrite H0, Ha.
    apply IH; [exact Hu|].
    intros u1 u2 E. apply (Hmin (a :: u1) u2). now rewrite E.
Qed.

Lemma strip_same_agree (w1 w2 s t1 t2 : str) :
  strip_same ic w1 s = Some t1 -> strip_same ic w2 s = Some t2 -> agree ic w1 w2 = true.
Proof.
  revert w2 s. induction w1 as [|x w1 IH]; intros w2 s H1 H2; [reflexivity|].
  destruct w2 as [|y w2]; [reflexivity|]. simpl in *.
  destruct s as [|c s]; [discriminate|].
  destruct (chr_eq ic x c) eqn:Hx; [|discriminate].
  destruct (chr_eq ic y c) eqn:Hy; [|discriminate].
  rewrite (IH _ _ H1 H2), andb_true_r.
  unfold chr_eq in *. destruct ic.
  - apply Ascii.eqb_eq in Hx, Hy. rewrite <- Hx, <- Hy. apply Ascii.eqb_refl.
  - apply Ascii.eqb_eq in Hx, Hy. subst. apply Ascii.eqb_refl.
Qed.

Lemma run_alt_none (ws : list str) (last : str) (s : str) (g : groups)
      (k : str -> groups -> option R) :
  (forall w', In w' (ws ++ [last]) -> strip_same ic w' s = None) ->
  run ic (alt (map word ws) (word last)) s g k = None.
Proof.
  induction ws as [|v ws IH]; intros Hno; simpl in *; rewrite run_word.
  - rewrite (Hno last); auto.
  - rewrite (Hno v); auto.
Qed.

(** Among words no two of which agree, the one that reads at the head of the
    text is the branch the alternation takes. *)
Lemma run_alt_choice (ws : list str) (last w : str) (s t : str) (g : groups)
      (k : str -> groups -> option R) :
  In w (ws ++ [last]) ->
  (forall w', In w' (ws ++ [last]) -> w' <> w -> agree ic w' w = false) ->
  strip_same ic w s = Some t ->
  run ic (alt (map word ws) (word last)) s g k = k t g.
Proof.
  intros Hin Hex Hw.
  assert (forall w', In w' (ws ++ [last]) -> w' <> w -> strip_same ic w' s = None) as Hno.
  { intros w' Hin' Hne. destruct (strip_same ic w' s) eqn:E; [|reflexivity].
    specialize (Hex w' Hin' Hne).
    rewrite (strip_same_agree _ _ _ _ _ E Hw) in Hex. discriminate. }
  clear Hex. induction ws as [|v ws IH]; simpl in *.
  - destruct Hin as [<-|[]]. rewrite run_word. now rewrite Hw.
  - rewrite run_word.
    destruct (list_eq_dec ascii_dec v w) as [->|Hne].
    + rewrite Hw. destruct (k t g) eqn:Hk; [reflexivity|].
      destruct (in_dec (list_eq_dec ascii_dec) w (ws ++ [last])) as [Hin'|Hout].
      * rewrite IH; auto.
      * apply run_alt_none. intros w' Hin'.
        apply Hno; [auto | intros ->; contradiction].
    + rewrite (Hno v); [| auto | exact Hne].
      destruct Hin as [E|Hin]; [congruence|]. apply IH; auto.
Qed.

End RunIntro.

Lemma attribute_names_disagree (name w : str) :
  In name attribute_names -> In w attribute_names -> w <> name -> agree true w name = false.
Proof.
  unfold attribute_names. simpl.
  intros [<-|[<-|[<-|[<-|[<-|[<-|[]]]]]]] [<-|[<-|[<-|[<-|[<-|[<-|[]]]]]]] Hne;
    try reflexivity; now contradiction Hne.
Qed.

Lemma quote_not_space (qc : ascii) : is_quote qc = true -> is_space qc = false.
Proof.
  unfold is_quote. intros H.
  apply orb_true_iff in H as [H|H]; apply Ascii.eqb_eq in H; subst qc; reflexivity.
Qed.

Lemma space_not_quote (c : ascii) : is_space c = true -> is_quote c = false.
Proof.
  intros H. destruct (is_quote c) eqn:E; [|reflexivity].
  now rewrite (quote_not_space _ E) in H.
Qed.

Lemma not_in_head (qc c : ascii) (u1 u2 u : str) :
  ~ In qc u -> u = u1 ++ c :: u2 -> Ascii.eqb c qc = false.
Proof.
  intros Hn ->. destruct (Ascii.eqb_spec c qc); [|reflexivity].
  subst c. exfalso. apply Hn, in_elt.
Qed.

(** The converse of [html_match_inv]: a text of that shape is matched, and
    the match ends at the first closing quote. *)
Lemma html_match_intro (name a ws : str) (qc : ascii) (u rest : str) :
  In name attribute_names -> strip_same true name a = Some [] ->
  forallb is_space ws = true -> is_quote qc = true ->
  forallb not_newline u = true -> ~ In qc u ->
  match_at true html_pattern (a ++ ws ++ qc :: "/"%char :: u ++ qc :: rest)
  = Some ([(0, a ++ ws ++ qc :: "/"%char :: u ++ [qc]); (3, "/"%char :: u);
           (2, [qc]); (1, a)], rest).
Proof.
  intros Hin Ha Hws Hq Hu Hnq.
  unfold match_at, html_pattern. cbn [run].
  change (alt _ _) with
    (alt (map word [lit "href="; lit "src="; lit "action="; lit "content="; lit "data-src="])
         (word (lit "srcset="))).
  rewrite (run_alt_choice true _ _ name _ (ws ++ qc :: "/"%char :: u ++ qc :: rest)).
  - rewrite consumed_app.
    rewrite star_greedy_all; [| |exact Hws].
    + rewrite star_greedy_stop by (exact (quote_not_space _ Hq)).
      cbn [accepts]. rewrite Hq, chr_eq_slash, Ascii.eqb_refl.
      rewrite (star_lazy_first true CDot u (qc :: rest) _
                 ([(0, a ++ ws ++ qc :: "/"%char :: u ++ [qc]); (3, "/"%char :: u);
                   (2, [qc]); (1, a)], rest)).
      * reflexivity.
      * exact Hu.
      * intros u1 u2 E Hne. destruct u2 as [|c u2]; [congruence|].
        rewrite (consumed_eq (qc :: "/"%char :: u ++ qc :: rest) [qc] _ eq_refl).
        cbn [lookup bind Nat.eqb strip_same app].
        now rewrite (chr_eq_quote _ _ _ Hq), (not_in_head _ _ _ _ _ Hnq E).
      * rewrite (consumed_eq (qc :: "/"%char :: u ++ qc :: rest) [qc] _ eq_refl).
        cbn [lookup bind Nat.eqb strip_same app].
        rewrite (chr_eq_quote _ _ _ Hq), Ascii.eqb_refl.
        unfold bind. do 2 f_equal. f_equal; [|f_equal].
        -- f_equal. apply consumed_eq.
           rewrite <- !app_assoc. simpl. now rewrite <- app_assoc.
        -- f_equal. apply (consumed_eq _ ("/"%char :: u) (qc :: rest)). reflexivity.
    + intros c t' Hc. cbn [run accepts] in *. now rewrite (space_not_quote _ Hc).
  - exact Hin.
  - intros w' Hin' Hne. now apply attribute_names_disagree.
  - now apply strip_same_app.
Qed.

(** ** A rewritten occurrence is not rewritten again *)

Lemma replace_callback_keeps (m : Match) :
  startswith (group m 3) (lit "//") = true \/ startswith (group m 3) PATH_PREFIX = true ->
  replace_callback m = group m 0.
Proof.
  intros H. unfold replace_callback.
  destruct (startswith (group m 3) (lit "//")); [reflexivity|].
  destruct H as [H|H]; [discriminate|]. now rewrite H.
Qed.

Lemma css_callback_keeps (m : Match) :
  startswith (group m 3) (lit "//") = true \/ startswith (group m 3) PATH_PREFIX = true ->
  css_callback m = group m 0.
Proof.
  intros H. unfold css_callback.
  destruct (startswith (group m 3) (lit "//")); [reflexivity|].
  destruct H as [H|H]; [discriminate|]. now rewrite H.
Qed.


(** Lists of characters written with nested [++] are compared after
    reassociation to the right. *)
Ltac reassoc := repeat first [rewrite <- app_assoc | progress simpl].


(** ** The CSS pattern *)

Lemma take_skip_spaces (t : str) : t = take_spaces t ++ skip_spaces t.
Proof.
  induction t as [|c t IH]; simpl; [reflexivity|].
  destruct (is_space c); simpl; [now rewrite <- IH | reflexivity].
Qed.

Lemma take_spaces_all (t : str) : forallb is_space (take_spaces t) = true.
Proof.
  induction t as [|c t IH]; simpl; [reflexivity|].
  destruct (is_space c) eqn:E; simpl; [now rewrite E | reflexivity].
Qed.

Lemma take_spaces_app (ws t : str) (c : ascii) :
  forallb is_space ws = true -> is_space c = false ->
  take_spaces (ws ++ c :: t) = ws /\ skip_spaces (ws ++ c :: t) = c :: t.
Proof.
  intros Hws Hc. induction ws as [|a ws IH]; simpl in *.
  - now rewrite Hc.
  - apply andb_true_iff in Hws as [Ha Hws]. rewrite Ha.
    destruct (IH Hws) as [-> ->]. auto.
Qed.

Lemma close_not_space : is_space ")"%char = false.
Proof. reflexivity. Qed.

Lemma space_not_close (c : ascii) : is_space c = true -> Ascii.eqb c ")"%char = false.
Proof.
  intros H. destruct (Ascii.eqb_spec c ")"%char); [|reflexivity]. now subst c.
Qed.

Lemma quote_not_close (c : ascii) : is_quote c = true -> Ascii.eqb c ")"%char = false.
Proof.
  intros H. destruct (Ascii.eqb_spec c ")"%char); [|reflexivity]. now subst c.
Qed.

Lemma quote_not_slash (c : ascii) : is_quote c = true -> Ascii.eqb c "/"%char = false.
Proof.
  intros H. destruct (Ascii.eqb_spec c "/"%char); [|reflexivity]. now subst c.
Qed.

Section RunSteps.

Context {R : Type}.
Variable ic : bool.
Variables (s : str) (g : groups) (K : str -> groups -> option R).

Lemma run_seq (r1 r2 : regex) :
  run ic (Seq r1 r2) s g K = run ic r1 s g (fun s' g' => run ic r2 s' g' K).
Proof. reflexivity. Qed.

Lemma run_group (n : nat) (r : regex) :
  run ic (Group n r) s g K = run ic r s g (fun s' g' => K s' (bind n (consumed s s') g')).
Proof. reflexivity. Qed.

Lemma run_star (c : cclass) :
  run ic (Star c) s g K = star_greedy ic c s (fun s' => K s' g).
Proof. reflexivity. Qed.

Lemma run_star_lazy (c : cclass) :
  run ic (StarLazy c) s g K = star_lazy ic c s (fun s' => K s' g).
Proof. reflexivity. Qed.

Lemma run_opt_nil (c : cclass) : s = [] -> run ic (Opt c) s g K = K [] g.
Proof. now intros ->. Qed.

End RunSteps.

Lemma run_opt_cons {R : Type} (ic : bool) (c : cclass) (a : ascii) (s : str) (g : groups)
      (K : str -> groups -> option R) :
  run ic (Opt c) (a :: s) g K =
  if accepts ic c a
  then match K s g with Some x => Some x | None => K (a :: s) g end
  else K (a :: s) g.
Proof. reflexivity. Qed.

Lemma run_chr_cons {R : Type} (ic : bool) (c : cclass) (a : ascii) (s : str) (g : groups)
      (K : str -> groups -> option R) :
  run ic (Chr c) (a :: s) g K = if accepts ic c a then K s g else None.
Proof. reflexivity. Qed.

Section CssTail.

Context {R : Type}.

(** The white space and the bracket that end the pattern. *)
Lemma close_run (t : str) (g : groups) (K : str -> groups -> option R) :
  star_greedy true CSpace t (fun s' => run true (Chr (CLit ")"%char)) s' g K)
  = if closes_now t then K (tl (skip_spaces t)) g else None.
Proof.
  unfold closes_now. induction t as [|c t IH]; [reflexivity|].
  cbn [star_greedy accepts skip_spaces]. destruct (is_space c) eqn:Hc.
  - rewrite IH. cbn [run accepts]. rewrite chr_eq_close, (space_not_close _ Hc).
    now destruct (skip_spaces t) as [|d r]; [|destruct (Ascii.eqb d ")"%char)];
      try destruct (K _ _).
  - cbn [run accepts tl]. now rewrite chr_eq_close.
Qed.

Lemma close_group_run (t : str) (g : groups) (K : str -> groups -> option R) :
  run true (Group 5 (Seq (Star CSpace) (Chr (CLit ")"%char)))) t g K
  = if closes_now t
    then K (tl (skip_spaces t)) (bind 5 (consumed t (tl (skip_spaces t))) g)
    else None.
Proof.
  rewrite run_group, run_seq, run_star. cbv beta.
  now rewrite (close_run t g (fun s' g' => K s' (bind 5 (consumed t s') g'))).
Qed.

(** Groups 4 and 5: an optional quote, white space, the bracket. *)
Lemma tail_run (t : str) (g : groups) (K : str -> groups -> option R) :
  run true (Seq (Group 4 (Opt CQuote))
                (Group 5 (Seq (Star CSpace) (Chr (CLit ")"%char))))) t g K
  = if css_closes t
    then K (tl (skip_spaces (snd (after_quote t))))
           (bind 5 (consumed (snd (after_quote t)) (tl (skip_spaces (snd (after_quote t)))))
                 (bind 4 (consumed t (snd (after_quote t))) g))
    else None.
Proof.
  unfold css_closes. rewrite run_seq, run_group.
  destruct t as [|c t].
  - rewrite run_opt_nil by reflexivity. now rewrite close_group_run.
  - rewrite run_opt_cons. cbn [after_quote accepts].
    destruct (is_quote c) eqn:Hq; cbn [snd].
    + rewrite !close_group_run.
      assert (closes_now (c :: t) = false) as Hc.
      { unfold closes_now. cbn [skip_spaces]. rewrite (quote_not_space _ Hq).
        exact (quote_not_close _ Hq). }
      rewrite Hc. destruct (closes_now t); [|reflexivity].
      now destruct (K _ _).
    + now rewrite close_group_run.
Qed.

End CssTail.



Lemma run_opt_quote {R : Type} (t : str) (g : groups) (K : str -> groups -> option R) :
  (forall c t', is_quote c = true -> K (c :: t') g = None) ->
  run true (Opt CQuote) t g K = K (snd (after_quote t)) g.
Proof.
  intros HK. destruct t as [|c t]; [reflexivity|].
  rewrite run_opt_cons. cbn [accepts after_quote].
  destruct (is_quote c) eqn:Hq; [|reflexivity].
  cbn [snd]. rewrite (HK _ _ Hq). now destruct (K t g).
Qed.

Lemma after_quote_split (t : str) : t = fst (after_quote t) ++ snd (after_quote t).
Proof. destruct t as [|c t]; [reflexivity|]. simpl. now destruct (is_quote c). Qed.

Lemma run_path_quote {R : Type} (c : ascii) (t : str) (g : groups) (r : regex)
      (K : str -> groups -> option R) :
  is_quote c = true ->
  run true (Seq (Group 3 (Seq (Chr (CLit "/"%char)) (StarLazy CDot))) r) (c :: t) g K = None.
Proof.
  intros Hq. rewrite run_seq, run_group, run_seq, run_chr_cons.
  cbn [accepts]. now rewrite chr_eq_slash, (quote_not_slash _ Hq).
Qed.

Lemma css_closes_split (t : str) :
  css_closes t = true ->
  exists q4 ws2 rest,
    t = q4 ++ ws2 ++ ")"%char :: rest
    /\ after_quote t = (q4, ws2 ++ ")"%char :: rest)
    /\ forallb is_space ws2 = true
    /\ skip_spaces (ws2 ++ ")"%char :: rest) = ")"%char :: rest.
Proof.
  unfold css_closes, closes_now. intros H.
  pose proof (after_quote_split t) as Ht.
  destruct (after_quote t) as [q4 t1]. cbn [fst snd] in *.
  pose proof (take_skip_spaces t1) as Ht1.
  pose proof (take_spaces_all t1) as Hws.
  destruct (skip_spaces t1) as [|c rest] eqn:Es; [discriminate|].
  apply Ascii.eqb_eq in H. subst c.
  exists q4, (take_spaces t1), rest.
  rewrite <- Ht1. split; [exact Ht|]. split; [reflexivity|]. split; [exact Hws|exact Es].
Qed.

Lemma css_match_inv (s : str) (m : Match) (rest : str) :
  match_at true css_pattern s = Some (m, rest) ->
  exists a ws1 q2 u q4 ws2,
    strip_same true (lit "url(") a = Some []
    /\ forallb is_space ws1 = true
    /\ after_quote (q2 ++ "/"%char :: u ++ q4 ++ ws2 ++ ")"%char :: rest)
       = (q2, "/"%char :: u ++ q4 ++ ws2 ++ ")"%char :: rest)
    /\ forallb not_newline u = true
    /\ after_quote (q4 ++ ws2 ++ ")"%char :: rest) = (q4, ws2 ++ ")"%char :: rest)
    /\ forallb is_space ws2 = true
    /\ (forall u1 u2, u = u1 ++ u2 -> u2 <> [] ->
          css_closes (u2 ++ q4 ++ ws2 ++ ")"%char :: rest) = false)
    /\ s = a ++ ws1 ++ q2 ++ "/"%char :: u ++ q4 ++ ws2 ++ ")"%char :: rest
    /\ m = [(0, a ++ ws1 ++ q2 ++ "/"%char :: u ++ q4 ++ ws2 ++ [")"%char]);
            (5, ws2 ++ [")"%char]); (4, q4); (3, "/"%char :: u); (2, q2); (1, a ++ ws1)].
Proof.
  unfold match_at, css_pattern.
  rewrite run_seq, run_group, run_seq, run_word.
  destruct (strip_same true (lit "url(") s) as [t|] eqn:Ea; [|discriminate].
  apply strip_same_inv in Ea as (a & -> & _ & Ha).
  rewrite run_star. intros H.
  apply star_greedy_inv in H as (ws1 & t0 & -> & Hws1 & H).
  rewrite run_seq, run_group in H.
  rewrite run_opt_quote in H by (intros c t' Hq; apply run_path_quote, Hq).
  pose proof (after_quote_split t0) as Ht0.
  destruct (after_quote t0) as [q2 t2] eqn:Eq2. cbn [fst snd] in *. subst t0.
  rewrite run_seq, run_group, run_seq in H.
  destruct t2 as [|c t3]; [discriminate|].
  rewrite run_chr_cons in H. cbn [accepts] in H. rewrite chr_eq_slash in H.
  destruct (Ascii.eqb_spec c "/"%char); [|discriminate]. subst c.
  rewrite run_star_lazy in H.
  apply star_lazy_inv in H as (u & t4 & -> & Hu & H & Hmin).
  rewrite tail_run in H.
  destruct (css_closes t4) eqn:Hcl; [|discriminate].
  apply css_closes_split in Hcl as (q4 & ws2 & rest0 & -> & Eq4 & Hws2 & Hskip).
  rewrite Eq4 in H. cbn [snd] in H. rewrite Hskip in H. cbn [tl] in H.
  inversion H; subst m rest0. clear H.
  exists a, ws1, q2, u, q4, ws2.
  split; [exact Ha|]. split; [exact Hws1|]. split; [exact Eq2|]. split; [exact Hu|].
  split; [exact Eq4|]. split; [exact Hws2|]. split.
  - intros u1 u2 E Hne. specialize (Hmin u1 u2 E Hne).
    rewrite tail_run in Hmin.
    now destruct (css_closes (u2 ++ q4 ++ ws2 ++ ")"%char :: rest)).
  - split; [reflexivity|]. unfold bind.
    repeat (f_equal; try (apply consumed_eq; now reassoc)).
Qed.

Lemma space_not_slash (c : ascii) : is_space c = true -> Ascii.eqb c "/"%char = false.
Proof.
  intros H. destruct (Ascii.eqb_spec c "/"%char); [|reflexivity]. now subst c.
Qed.

Lemma after_quote_fst (t q t' : str) :
  after_quote t = (q, t') ->
  (q = [] /\ t' = t) \/ (exists c, q = [c] /\ is_quote c = true /\ t = c :: t').
Proof.
  destruct t as [|c t]; simpl.
  - intros H. inversion H. now left.
  - destruct (is_quote c) eqn:Hq; intros H; inversion H; subst.
    + right. now exists c.
    + now left.
Qed.

Lemma closes_now_intro (ws2 rest : str) :
  forallb is_space ws2 = true ->
  closes_now (ws2 ++ ")"%char :: rest) = true
  /\ skip_spaces (ws2 ++ ")"%char :: rest) = ")"%char :: rest.
Proof.
  intros H. unfold closes_now.
  destruct (take_spaces_app ws2 rest ")"%char H close_not_space) as [_ ->]. auto.
Qed.

Lemma star_greedy_head {R : Type} (ic : bool) (c : cclass) (t : str) (k : str -> option R) :
  match t with a :: _ => accepts ic c a | [] => false end = false ->
  star_greedy ic c t k = k t.
Proof. destruct t as [|a t]; simpl; [reflexivity|]. now intros ->. Qed.

Lemma css_match_intro (a ws1 q2 u q4 ws2 rest : str) :
  strip_same true (lit "url(") a = Some [] ->
  forallb is_space ws1 = true ->
  after_quote (q2 ++ "/"%char :: u ++ q4 ++ ws2 ++ ")"%char :: rest)
    = (q2, "/"%char :: u ++ q4 ++ ws2 ++ ")"%char :: rest) ->
  forallb not_newline u = true ->
  after_quote (q4 ++ ws2 ++ ")"%char :: rest) = (q4, ws2 ++ ")"%char :: rest) ->
  forallb is_space ws2 = true ->
  (forall u1 u2, u = u1 ++ u2 -> u2 <> [] ->
     css_closes (u2 ++ q4 ++ ws2 ++ ")"%char :: rest) = false) ->
  match_at true css_pattern (a ++ ws1 ++ q2 ++ "/"%char :: u ++ q4 ++ ws2 ++ ")"%char :: rest)
  = Some ([(0, a ++ ws1 ++ q2 ++ "/"%char :: u ++ q4 ++ ws2 ++ [")"%char]);
           (5, ws2 ++ [")"%char]); (4, q4); (3, "/"%char :: u); (2, q2); (1, a ++ ws1)],
          rest).
Proof.
  intros Ha Hws1 Eq2 Hu Eq4 Hws2 Hmin.
  unfold match_at, css_pattern.
  rewrite run_seq, run_group, run_seq, run_word.
  rewrite (strip_same_app _ _ _ _ Ha). rewrite run_star.
  rewrite star_greedy_all; [| |exact Hws1].
  2:{ intros c t' Hc. rewrite run_seq, run_group.
      rewrite run_opt_quote by (intros c' t'' Hq; apply run_path_quote, Hq).
      cbn [after_quote]. rewrite (space_not_quote _ Hc). cbn [snd].
      rewrite run_seq, run_group, run_seq, run_chr_cons. cbn [accepts] in *.
      now rewrite chr_eq_slash, (space_not_slash _ Hc). }
  rewrite (star_greedy_head true CSpace (q2 ++ "/"%char :: u ++ q4 ++ ws2 ++ ")"%char :: rest)).
  2:{ destruct (after_quote_fst _ _ _ Eq2) as [[-> _]|(c & -> & Hq & _)].
      - reflexivity.
      - simpl. now rewrite (quote_not_space _ Hq). }
  rewrite run_seq, run_group.
  rewrite run_opt_quote by (intros c' t'' Hq; apply run_path_quote, Hq).
  rewrite Eq2. cbn [snd].
  rewrite run_seq, run_group, run_seq, run_chr_cons. cbn [accepts].
  rewrite chr_eq_slash, Ascii.eqb_refl. rewrite run_star_lazy.
  destruct (closes_now_intro ws2 rest Hws2) as [Hcn Hskip].
  apply star_lazy_first.
  - exact Hu.
  - intros u1 u2 E Hne. rewrite tail_run. now rewrite (Hmin u1 u2 E Hne).
  - rewrite tail_run. unfold css_closes. rewrite Eq4. cbn [snd].
    rewrite Hcn, Hskip. cbn [tl]. unfold bind.
    repeat (f_equal; try (apply consumed_eq; now reassoc)).
Qed.





(** ** The pattern for links, on a text of known shape *)

Lemma href_match_intro (qc : ascii) (url rest : str) :
  is_quote qc = true -> forallb not_newline url = true -> ~ In qc url ->
  match_at false href_pattern (lit "href=" ++ qc :: url ++ qc :: rest)
  = Some ([(0, lit "href=" ++ qc :: url ++ [qc]); (2, url); (1, [qc])], rest).
Proof.
  intros Hq Hu Hnq. unfold match_at, href_pattern.
  rewrite run_seq, run_word.
  rewrite (strip_same_app false (lit "href=") (lit "href=") _ eq_refl).
  rewrite run_seq, run_group, run_chr_cons. cbn [accepts]. rewrite Hq.
  rewrite run_seq, run_group, run_star_lazy.
  apply star_lazy_first.
  - exact Hu.
  - intros u1 u2 E Hne. destruct u2 as [|c u2]; [congruence|].
    rewrite (consumed_eq (qc :: url ++ qc :: rest) [qc] _ eq_refl).
    cbn [run lookup bind Nat.eqb strip_same app].
    now rewrite (chr_eq_quote _ _ _ Hq), (not_in_head _ _ _ _ _ Hnq E).
  - rewrite (consumed_eq (qc :: url ++ qc :: rest) [qc] _ eq_refl).
    cbn [run lookup bind Nat.eqb strip_same app].
    rewrite (chr_eq_quote _ _ _ Hq), Ascii.eqb_refl. unfold bind.
    repeat (f_equal; try (apply consumed_eq; now reassoc)).
Qed.


Lemma before_marker_In (c : ascii) (url : str) :
  In c (before_marker url) -> In c url.
Proof.
  induction url as [|x url IH]; simpl; [tauto|].
  destruct (Ascii.eqb x "?"%char || Ascii.eqb x "#"%char); simpl; tauto.
Qed.

Lemma without_final_slash_In (c : ascii) (s : str) :
  In c (without_final_slash s) -> In c s.
Proof.
  unfold without_final_slash. destruct (rev s) as [|x r] eqn:E; [tauto|].
  destruct (Ascii.eqb x "/"%char); [|tauto].
  intros H. apply in_rev in H. rewrite in_rev, E. now right.
Qed.

Lemma after_first_In (c x : ascii) (s : str) : In c (after_first x s) -> In c s.
Proof.
  induction s as [|y s IH]; simpl; [tauto|].
  destruct (Ascii.eqb y x); tauto.
Qed.

Lemma mem_In (c : ascii) (s : str) : mem c s = true -> In c s.
Proof.
  unfold mem. intros H. apply existsb_exists in H as (x & Hin & Hx).
  apply Ascii.eqb_eq in Hx. now subst x.
Qed.

(** The new URL is made of characters of the old one and of [.html]. *)
Lemma new_url_In (c : ascii) (url : str) :
  In c (new_url_of url) -> In c url \/ In c (lit ".html").
Proof.
  unfold new_url_of. rewrite url_base_spec, suffix_spec.
  intros H. apply in_app_or in H as [H|H].
  - left. now apply before_marker_In, without_final_slash_In.
  - apply in_app_or in H as [H|H]; [now right|]. left.
    destruct (mem "?"%char url) eqn:Eq.
    + destruct H as [<-|H]; [now apply mem_In | now apply after_first_In in H].
    + destruct (mem "#"%char url) eqn:Eh; [|contradiction].
      destruct H as [<-|H]; [now apply mem_In | now apply after_first_In in H].
Qed.

Lemma fix_html_link_cases (fs : FileSystem) (root_dir : str) (m : Match) :
  fix_html_link fs root_dir m = group m 0
  \/ (rewritable fs root_dir (group m 2)
      /\ fix_html_link fs root_dir m
         = lit "href=" ++ group m 1 ++ new_url_of (group m 2) ++ group m 1).
Proof.
  unfold fix_html_link, rewritable, potential_html_of.
  destruct (startswith (group m 2) PATH_PREFIX); [|now left]. simpl negb. cbv iota.
  destruct (clean_path_of (group m 2)) eqn:Ec; [now left|].
  destruct (isdir fs (potential_file_path_of root_dir (group m 2))); [now left|].
  destruct (isfile fs (potential_file_path_of root_dir (group m 2) ++ lit ".html"));
    [|now left].
  right. repeat split. discriminate.
Qed.

(** ** The target of a completed link *)

Lemma replace_same (old s : str) : old <> [] -> replace s old old = s.
Proof.
  intros Hold. remember (length s) as n eqn:Hn. revert s Hn.
  induction n as [n IH] using lt_wf_ind. intros s Hn.
  destruct (startswith s old) eqn:E.
  - apply startswith_inv in E as [t ->]. rewrite (replace_hit _ _ Hold).
    f_equal. apply (IH (length t)); [|reflexivity].
    pose proof (old_length old Hold). rewrite Hn, length_app. lia.
  - destruct s as [|c s]; [now apply replace_nil|].
    rewrite (replace_skip _ _ Hold _ _ E). f_equal.
    apply (IH (length s)); [subst n; simpl; lia | reflexivity].
Qed.

Lemma before_marker_free (url : str) : existsb is_marker (before_marker url) = false.
Proof.
  induction url as [|c url IH]; simpl; [reflexivity|].
  fold (is_marker c). destruct (is_marker c) eqn:E; simpl; [reflexivity|].
  now rewrite E.
Qed.

Lemma before_marker_app (b x : str) :
  existsb is_marker b = false -> before_marker (b ++ x) = b ++ before_marker x.
Proof.
  induction b as [|c b IH]; simpl; [reflexivity|].
  fold (is_marker c). intros H. apply orb_false_iff in H as [Hc Hb].
  now rewrite Hc, (IH Hb).
Qed.

Lemma without_final_slash_free (b : str) :
  existsb is_marker b = false -> existsb is_marker (without_final_slash b) = false.
Proof.
  intros H. destruct (existsb is_marker (without_final_slash b)) eqn:E; [|reflexivity].
  apply existsb_exists in E as (c & Hin & Hc).
  apply without_final_slash_In in Hin.
  assert (existsb is_marker b = true) by (apply existsb_exists; now exists c).
  congruence.
Qed.

Lemma without_final_slash_app (p b : str) :
  b <> [] -> without_final_slash (p ++ b) = p ++ without_final_slash b.
Proof.
  intros Hb. unfold without_final_slash. rewrite rev_app_distr.
  destruct (rev b) as [|c r] eqn:E.
  - apply (f_equal (@rev _)) in E. rewrite rev_involutive in E. now subst b.
  - simpl. destruct (Ascii.eqb c "/"%char); [|reflexivity].
    now rewrite rev_app_distr, rev_involutive.
Qed.

Lemma url_base_prefixed (t : str) :
  exists b, url_base_of (PATH_PREFIX ++ t) = PATH_PREFIX ++ b
            /\ existsb is_marker b = false.
Proof.
  rewrite url_base_spec.
  change (before_marker (PATH_PREFIX ++ t)) with (PATH_PREFIX ++ before_marker t).
  destruct (before_marker t) as [|c bm] eqn:E.
  - exists []. split; reflexivity.
  - exists (without_final_slash (c :: bm)).
    split; [apply without_final_slash_app; discriminate|].
    apply without_final_slash_free. rewrite <- E. apply before_marker_free.
Qed.

Lemma suffix_marker (url : str) : before_marker (suffix_of url) = [].
Proof.
  rewrite suffix_spec. destruct (mem "?"%char url); [reflexivity|].
  now destruct (mem "#"%char url).
Qed.

Lemma lstrip_html (b : str) :
  lstrip (b ++ lit ".html") (lit "/") = lstrip b (lit "/") ++ lit ".html".
Proof.
  induction b as [|c b IH]; [reflexivity|]. simpl.
  destruct (Ascii.eqb c "/"%char); simpl; [exact IH | reflexivity].
Qed.

Lemma lstrip_guard (s : str) :
  (if startswith s (lit "/") then lstrip s (lit "/") else s) = lstrip s (lit "/").
Proof.
  destruct s as [|c s]; [reflexivity|]. simpl.
  now destruct (Ascii.eqb c "/"%char).
Qed.


(** ** The domain substitutor leaves no old domain behind *)

Lemma clash_startswith (d old x : str) :
  clash d old = true -> startswith (d ++ x) old = false.
Proof.
  revert old. induction d as [|c d IH]; intros old H; [discriminate|].
  destruct old as [|y old]; [discriminate|]. simpl in *.
  destruct (Ascii.eqb c y); simpl in *; [now apply IH | reflexivity].
Qed.

Lemma tails_In (u d : str) : d <> [] -> In d (tails (u ++ d)).
Proof.
  intros Hd. induction u as [|c u IH]; simpl.
  - destruct d; [congruence | now left].
  - now right.
Qed.

Lemma new_domain_tails : forallb (fun d => clash d OLD_DOMAIN) (tails NEW_DOMAIN) = true.
Proof. vm_compute. reflexivity. Qed.

(** A word in which [m] stands only at the end, read at the head of the
    result, was already at the head of the input. *)
Lemma startswith_cons (c : ascii) (s : str) (x : ascii) (p : str) :
  startswith (c :: s) (x :: p) = Ascii.eqb c x && startswith s p.
Proof. reflexivity. Qed.

Lemma Replaced_head (s out : str) :
  Replaced OLD_DOMAIN NEW_DOMAIN s out ->
  forall w, only_last "m"%char w = true -> startswith out w = true ->
            startswith s w = true.
Proof.
  induction 1 as [|s t _ _|c s t _ _ IH]; intros w Hw Hout.
  - destruct w; [reflexivity | discriminate].
  - destruct w as [|x w]; [reflexivity|].
    change (NEW_DOMAIN ++ t) with ("m"%char :: tl NEW_DOMAIN ++ t) in Hout.
    change (OLD_DOMAIN ++ s) with ("m"%char :: tl OLD_DOMAIN ++ s).
    rewrite startswith_cons in Hout |- *.
    apply andb_true_iff in Hout as [Hx _]. rewrite Hx.
    cbn [only_last] in Hw. rewrite Ascii.eqb_sym, Hx in Hw.
    destruct w; [reflexivity | discriminate].
  - destruct w as [|x w]; [reflexivity|].
    rewrite startswith_cons in Hout |- *.
    apply andb_true_iff in Hout as [Hx Ht]. rewrite Hx. cbn [andb].
    apply IH; [|exact Ht]. cbn [only_last] in Hw.
    destruct (Ascii.eqb x "m"%char); [now destruct w | exact Hw].
Qed.

Lemma Replaced_free (s out : str) :
  Replaced OLD_DOMAIN NEW_DOMAIN s out -> domain_free out.
Proof.
  induction 1 as [|s t _ IH|c s t Hc Hr IH]; intros u v E.
  - symmetry in E. apply app_eq_nil in E as [_ ->]. reflexivity.
  - apply app_eq_app in E as [l [[E1 E2]|[E1 E2]]].
    + destruct l as [|c l].
      * rewrite app_nil_l in E2. subst v. now apply (IH [] t).
      * subst v. apply clash_startswith.
        pose proof new_domain_tails as Hall. rewrite forallb_forall in Hall.
        apply Hall. rewrite E1. apply tails_In. discriminate.
    + now apply (IH l v).
  - destruct u as [|x u]; simpl in E.
    + subst v. destruct (startswith (c :: t) OLD_DOMAIN) eqn:Ho; [|reflexivity].
      rewrite <- Hc.
      change OLD_DOMAIN with ("m"%char :: tl OLD_DOMAIN) in Ho |- *.
      rewrite startswith_cons in Ho |- *.
      apply andb_true_iff in Ho as [Hx Ht]. rewrite Hx. cbn [andb].
      symmetry. now apply (Replaced_head _ _ Hr).
    + inversion E; subst. now apply (IH u v).
Qed.

Lemma domain_free_fixed (s : str) : domain_free s -> domain_pass s = s.
Proof.
  unfold domain_pass. induction s as [|c s IH]; intros H.
  - apply replace_nil. discriminate.
  - rewrite (replace_skip _ _ OLD_DOMAIN_nonempty); [|now apply (H [] (c :: s))].
    f_equal. apply IH. intros u t E. apply (H (c :: u) t). now rewrite E.
Qed.



(** ** A pass run again over a rewritten occurrence *)

Lemma html_match_consumes (s : str) (m : Match) (rest : str) :
  match_at true html_pattern s = Some (m, rest) -> length rest < length s.
Proof.
  intros H. apply html_match_inv in H as (? & a & ws & qc & u & _ & _ & _ & _ & _ & _ & -> & _).
  rewrite !length_app. simpl. rewrite length_app. simpl. lia.
Qed.

Lemma css_match_consumes (s : str) (m : Match) (rest : str) :
  match_at true css_pattern s = Some (m, rest) -> length rest < length s.
Proof.
  intros H. apply css_match_inv in H
    as (a & ws1 & q2 & u & q4 & ws2 & _ & _ & _ & _ & _ & _ & _ & -> & _).
  rewrite !length_app. simpl. rewrite !length_app. simpl. lia.
Qed.

Lemma href_match_consumes (s : str) (m : Match) (rest : str) :
  match_at false href_pattern s = Some (m, rest) -> length rest < length s.
Proof.
  intros H. apply href_match_inv in H as (qc & url & _ & _ & _ & -> & _).
  rewrite !length_app. simpl. rewrite length_app. simpl. lia.
Qed.

(** Where a pattern matches at the head of the text, the pass puts there
    what the callback gives and goes on after the match. *)
Lemma html_pass_step (s : str) (m : Match) (rest : str) :
  match_at true html_pattern s = Some (m, rest) ->
  html_pass s = replace_callback m ++ html_pass rest.
Proof.
  intros Hm. exact (sub_match _ _ _ _ _ _ Hm (html_match_consumes _ _ _ Hm)).
Qed.

Lemma css_pass_step (s : str) (m : Match) (rest : str) :
  match_at true css_pattern s = Some (m, rest) ->
  css_pass s = css_callback m ++ css_pass rest.
Proof.
  intros Hm. exact (sub_match _ _ _ _ _ _ Hm (css_match_consumes _ _ _ Hm)).
Qed.

Lemma link_pass_step (fs : FileSystem) (root_dir s : str) (m : Match) (rest : str) :
  match_at false href_pattern s = Some (m, rest) ->
  link_pass fs root_dir s = fix_html_link fs root_dir m ++ link_pass fs root_dir rest.
Proof.
  intros Hm. exact (sub_match _ _ _ _ _ _ Hm (href_match_consumes _ _ _ Hm)).
Qed.




(** ** Properties of the rewriter *)


(** The same page fails for every file system and every root: it holds no
    link for the fixer to probe. *)
Lemma merging_page_runs (fs : FileSystem) (root_dir : str) :
  process_content fs merging_page root_dir
    = lit "src='/x src=" ++ quoted (lit "/download/a") ++ lit "'"
  /\ process_content fs (process_content fs merging_page root_dir) root_dir
    = lit "src='/download/x src=" ++ quoted (lit "/download/a") ++ lit "'".
Proof. split; vm_compute; reflexivity. Qed.

(** Two more ways in which a second run differs: a fragment dropped by the
    fixer held the quote that closed an outer attribute, and a file named
    [a.html.html] lies next to [a.html]. *)
Lemma second_run_examples :
  let fs := fs_of [] [lit "/site/a.html"] in
  let page := lit "src='/x content=" ++ quoted (lit "/q") ++ lit " href="
                  ++ quoted (lit "/download/a#'?c") in
  process_content fs page (lit "/site")
    = lit "src='/download/x content=" ++ quoted (lit "/q") ++ lit " href="
          ++ quoted (lit "/download/a.html?c")
  /\ process_content fs (process_content fs page (lit "/site")) (lit "/site")
    = lit "src='/download/x content=" ++ quoted (lit "/download/q") ++ lit " href="
          ++ quoted (lit "/download/a.html?c")
  /\ let fs2 := fs_of [] [lit "/site/a.html"; lit "/site/a.html.html"] in
     let link := lit "href=" ++ quoted (lit "/download/a") in
     process_content fs2 link (lit "/site") = lit "href=" ++ quoted (lit "/download/a.html")
     /\ process_content fs2 (process_content fs2 link (lit "/site")) (lit "/site")
        = lit "href=" ++ quoted (lit "/download/a.html.html").
Proof. repeat split; vm_compute; reflexivity. Qed.



(** C2: on the sample page, with [about.html] a regular file under the root
    and [about] not a directory, [process_content] gives the page with the
    link prefixed and completed and the domain replaced. *)
Theorem sample_page_processed (fs : FileSystem) (root_dir : str)
        (Hdir : isdir fs (os_path_join root_dir (lit "about")) = false)
        (Hfile : isfile fs (os_path_join root_dir (lit "about") ++ lit ".html") = true) :
  process_content fs sample_page root_dir = sample_page_out.
Proof.
  rewrite process_content_passes.
  replace (path_prefixer (domain_pass sample_page))
    with (lit "<a href=" ++ quoted (lit "/download/about") ++ lit ">About</a><img src="
              ++ quoted (lit "http://mychart-ap.github.io/download//x.png") ++ lit ">")
    by (vm_compute; reflexivity).
  vm_compute in Hdir, Hfile. vm_compute.
  rewrite Hdir, Hfile. reflexivity.
Qed.

Lemma sample_page_processed_witness :
  process_content (fs_of [] [lit "/site/about.html"]) sample_page (lit "/site")
  = sample_page_out.
Proof.
  apply sample_page_processed; vm_compute; reflexivity.
Defined.

(** C3, as the specification words it, is refuted: were the tail to put back
    the one of the marker met first from the left, [/download/a#b?c] would
    keep [#b?c]; the code keeps [?c] and loses [#b]. *)
Lemma first_marker_rule_refuted :
  ~ (forall (fs : FileSystem) (root_dir : str) (m : Match),
        rewritable fs root_dir (group m 2) ->
        fix_html_link fs root_dir m
        = lit "href=" ++ group m 1
            ++ (url_base_of (group m 2) ++ lit ".html" ++ first_marker_tail (group m 2))
            ++ group m 1).
Proof.
  intros H.
  specialize (H (fs_of [] [lit "/site/a.html"]) (lit "/site") marker_match).
  assert (rewritable (fs_of [] [lit "/site/a.html"]) (lit "/site") (group marker_match 2)) as Hr.
  { repeat split; try reflexivity. vm_compute. discriminate. }
  specialize (H Hr). vm_compute in H. discriminate.
Qed.

(** C3, amended: when the link is rewritten, the new URL is the old one up to
    its first [?] or [#], without one final slash, then [.html], then at most
    one tail: [?] and all that follows the first [?] when the URL holds a
    [?] anywhere; if it holds none, [#] and all that follows the first [#];
    if it holds neither, nothing.  A fragment that stands before a [?] is
    not put back.  The pass puts [href=], the quote, the new URL and the
    quote in place of the match and goes on after it;
    [/download/blog/news?x=1] becomes [/download/blog/news.html?x=1]. *)
Theorem fixer_new_url (fs : FileSystem) (root_dir s : str) (m : Match) (rest : str)
        (Hm : match_at false href_pattern s = Some (m, rest))
        (Hrw : rewritable fs root_dir (group m 2)) :
  let url := group m 2 in
  let new_url :=
    without_final_slash (before_marker url) ++ lit ".html"
    ++ (if mem "?"%char url then "?"%char :: after_first "?"%char url
        else if mem "#"%char url then "#"%char :: after_first "#"%char url
        else []) in
  fix_html_link fs root_dir m = lit "href=" ++ group m 1 ++ new_url ++ group m 1
  /\ link_pass fs root_dir s
     = (lit "href=" ++ group m 1 ++ new_url ++ group m 1) ++ link_pass fs root_dir rest.
Proof.
  intros url new_url.
  assert (fix_html_link fs root_dir m = lit "href=" ++ group m 1 ++ new_url ++ group m 1) as E.
  { rewrite (fix_html_link_rewrites _ _ _ Hrw). unfold new_url_of, new_url, url.
    now rewrite url_base_spec, suffix_spec. }
  split; [exact E|]. rewrite <- E. now apply link_pass_step.
Qed.

Lemma fixer_new_url_witness :
  match_at false href_pattern (lit "href=" ++ quoted (lit "/download/blog/news?x=1") ++ lit ">")
    = Some (news_match, lit ">")
  /\ fix_html_link (fs_of [] [lit "/site/blog/news.html"]) (lit "/site") news_match
     = lit "href=" ++ quoted (lit "/download/blog/news.html?x=1")
  /\ link_pass (fs_of [] [lit "/site/blog/news.html"]) (lit "/site")
               (lit "href=" ++ quoted (lit "/download/blog/news?x=1") ++ lit ">")
     = lit "href=" ++ quoted (lit "/download/blog/news.html?x=1") ++ lit ">".
Proof.
  split; [vm_compute; reflexivity|].
  destruct (fixer_new_url (fs_of [] [lit "/site/blog/news.html"]) (lit "/site")
              (lit "href=" ++ quoted (lit "/download/blog/news?x=1") ++ lit ">")
              news_match (lit ">")) as [H1 H2].
  - vm_compute. reflexivity.
  - repeat split; try reflexivity. vm_compute. discriminate.
  - split.
    + rewrite H1. vm_compute. reflexivity.
    + rewrite H2. vm_compute. reflexivity.
Defined.

(** C4: [fix_html_link] gives the occurrence back unchanged when the target
    path with [.html] added is not a regular file, and also when the target
    path is a directory, whether or not the [.html] file is there too; the
    pass then leaves the matched text as it is and goes on after it.  So the
    whole pass changes nothing in a tree without regular files, and nothing
    where every probed path is a directory; a link to [/download/blog/news]
    stays when [blog/news] is a directory next to [blog/news.html], and a
    link to [/download/blog/missing] stays when neither exists. *)
Theorem fixer_guards :
  (forall (fs : FileSystem) (root_dir : str) (m : Match),
      isfile fs (potential_html_of root_dir (group m 2)) = false
      \/ isdir fs (potential_file_path_of root_dir (group m 2)) = true ->
      fix_html_link fs root_dir m = group m 0)
  /\ (forall (fs : FileSystem) (root_dir s : str) (m : Match) (rest : str),
         match_at false href_pattern s = Some (m, rest) ->
         isfile fs (potential_html_of root_dir (group m 2)) = false
         \/ isdir fs (potential_file_path_of root_dir (group m 2)) = true ->
         link_pass fs root_dir s = group m 0 ++ link_pass fs root_dir rest)
  /\ (forall (fs : FileSystem) (root_dir content : str),
         (forall p, isfile fs p = false) \/ (forall p, isdir fs p = true) ->
         link_pass fs root_dir content = content)
  /\ link_pass (fs_of [lit "/site/blog/news"] [lit "/site/blog/news.html"]) (lit "/site")
               (lit "<a href=" ++ quoted (lit "/download/blog/news") ++ lit ">")
     = lit "<a href=" ++ quoted (lit "/download/blog/news") ++ lit ">"
  /\ link_pass (fs_of [] [lit "/site/blog/news.html"]) (lit "/site")
               (lit "<a href=" ++ quoted (lit "/download/blog/missing") ++ lit ">")
     = lit "<a href=" ++ quoted (lit "/download/blog/missing") ++ lit ">".
Proof.
  split; [exact fix_html_link_guard|]. split.
  - intros fs root_dir s m rest Hm H.
    rewrite (link_pass_step _ _ _ _ _ Hm). now rewrite (fix_html_link_guard _ _ _ H).
  - split; [|split; vm_compute; reflexivity].
    intros fs root_dir content H. unfold link_pass.
    apply sub_unchanged. intros u t m rest _ _.
    apply fix_html_link_guard.
    destruct H as [H|H]; [left | right]; apply H.
Qed.

Lemma fixer_guards_witness :
  match_at false href_pattern (lit "href=" ++ quoted (lit "/download/blog/news"))
    = Some (news_plain_match, [])
  /\ isfile (fs_of [lit "/site/blog/news"] [lit "/site/blog/news.html"])
            (potential_html_of (lit "/site") (group news_plain_match 2)) = true
  /\ fix_html_link (fs_of [lit "/site/blog/news"] [lit "/site/blog/news.html"])
                   (lit "/site") news_plain_match
     = group news_plain_match 0.
Proof.
  split; [vm_compute; reflexivity|]. split; [vm_compute; reflexivity|].
  apply (proj1 fixer_guards). right. vm_compute. reflexivity.
Defined.

(** C5: a match whose path starts with one slash and not with the prefix is
    rewritten to the prefix, stripped of trailing slashes, put directly in
    front of the path: the new path is [/download] followed by the old path,
    whose first slash is the only slash between them.  The pass puts the
    rewritten occurrence in place of the match and goes on after it.  The
    attribute [href="/images/logo.png"] becomes
    [href="/download/images/logo.png"], and the same holds for a CSS
    [url('/css/style.css')]. *)
Theorem prefixer_prepends_prefix :
  (forall m : Match,
      startswith (group m 3) (lit "/") = true ->
      startswith (group m 3) (lit "//") = false ->
      startswith (group m 3) PATH_PREFIX = false ->
      replace_callback m =
        group m 1 ++ group m 2 ++ (rstrip PATH_PREFIX (lit "/") ++ group m 3) ++ group m 2
      /\ css_callback m =
        group m 1 ++ group m 2 ++ (rstrip PATH_PREFIX (lit "/") ++ group m 3)
                  ++ group m 4 ++ group m 5
      /\ exists p, group m 3 = lit "/" ++ p
                   /\ startswith p (lit "/") = false
                   /\ rstrip PATH_PREFIX (lit "/") ++ group m 3 = lit "/download/" ++ p)
  /\ (forall (s : str) (m : Match) (rest : str),
         match_at true html_pattern s = Some (m, rest) ->
         startswith (group m 3) (lit "//") = false ->
         startswith (group m 3) PATH_PREFIX = false ->
         html_pass s
         = (group m 1 ++ group m 2 ++ (lit "/download" ++ group m 3) ++ group m 2)
             ++ html_pass rest)
  /\ (forall (s : str) (m : Match) (rest : str),
         match_at true css_pattern s = Some (m, rest) ->
         startswith (group m 3) (lit "//") = false ->
         startswith (group m 3) PATH_PREFIX = false ->
         css_pass s
         = (group m 1 ++ group m 2 ++ (lit "/download" ++ group m 3)
                      ++ group m 4 ++ group m 5)
             ++ css_pass rest)
  /\ html_pass (lit "href=" ++ quoted (lit "/images/logo.png"))
     = lit "href=" ++ quoted (lit "/download/images/logo.png")
  /\ css_pass (lit "background: url('/css/style.css')")
     = lit "background: url('/download/css/style.css')".
Proof.
  split; [|split; [|split; [|split; vm_compute; reflexivity]]].
  - intros m H1 H2 H3.
    rewrite (replace_callback_rewrites m H2 H3), (css_callback_rewrites m H2 H3).
    rewrite clean_prefix_eq.
    split; [reflexivity|]. split; [reflexivity|].
    destruct (group m 3) as [|c p]; [discriminate|].
    simpl in H1. apply andb_true_iff in H1 as [Hc _].
    apply Ascii.eqb_eq in Hc. subst c.
    exists p. split; [reflexivity|]. split; [|reflexivity].
    destruct p as [|d p]; [reflexivity|].
    simpl in H2 |- *. now rewrite andb_true_r in *.
  - intros s m rest Hm H2 H3.
    now rewrite (html_pass_step _ _ _ Hm), (replace_callback_rewrites m H2 H3).
  - intros s m rest Hm H2 H3.
    now rewrite (css_pass_step _ _ _ Hm), (css_callback_rewrites m H2 H3).
Qed.

Lemma prefixer_prepends_prefix_witness :
  match_at true html_pattern (lit "href=" ++ quoted (lit "/images/logo.png") ++ lit ">")
    = Some (logo_match, lit ">")
  /\ replace_callback logo_match = lit "href=" ++ quoted (lit "/download/images/logo.png").
Proof.
  split; [vm_compute; reflexivity|].
  destruct (proj1 prefixer_prepends_prefix logo_match) as [H _];
    [reflexivity | reflexivity | reflexivity | exact H].
Defined.





(** C8: the domain substitutor is a total function that replaces every
    occurrence of the old domain, taken from the left without overlap, by the
    new domain, and nothing else: its result is the only text related to the
    input by [Replaced].  The match is literal (a dot of the old domain
    stands for a dot only), and the empty text is left empty. *)
Theorem domain_pass_replaces_all :
  domain_pass [] = []
  /\ (forall s, Replaced OLD_DOMAIN NEW_DOMAIN s (domain_pass s))
  /\ (forall s t, Replaced OLD_DOMAIN NEW_DOMAIN s t -> t = domain_pass s)
  /\ (forall s, domain_pass (OLD_DOMAIN ++ s) = NEW_DOMAIN ++ domain_pass s)
  /\ (forall c s, startswith (c :: s) OLD_DOMAIN = false ->
                  domain_pass (c :: s) = c :: domain_pass s)
  /\ domain_pass (lit "mychart-appXcom") = lit "mychart-appXcom"
  /\ domain_pass (lit "a.mychart-app.com/mychart-app.com.")
     = lit "a.mychart-ap.github.io/download//mychart-ap.github.io/download/.".
Proof.
  split; [reflexivity|].
  split; [intros s; apply replace_Replaced, OLD_DOMAIN_nonempty|].
  split; [intros s t; apply Replaced_unique, OLD_DOMAIN_nonempty|].
  split; [intros s; apply replace_hit, OLD_DOMAIN_nonempty|].
  split; [intros c s; apply replace_skip, OLD_DOMAIN_nonempty|].
  split; vm_compute; reflexivity.
Qed.

Lemma domain_pass_replaces_all_witness :
  domain_pass (lit "x" ++ lit "mychart-app.com")
  = lit "x" ++ lit "mychart-ap.github.io/download/".
Proof.
  destruct domain_pass_replaces_all as (H0 & _ & _ & Hhit & Hskip & _).
  change (lit "x" ++ lit "mychart-app.com") with ("x"%char :: OLD_DOMAIN ++ []).
  rewrite Hskip by reflexivity.
  rewrite Hhit, H0. reflexivity.
Defined.

(** C9: the pattern of the link extension fixer is compiled without flags, so
    it matches only where the text reads [href=] in lower case; at any other
    place the pass copies the character and moves on.  A document that
    nowhere reads [href=] in lower case comes out of the fixer as it went in,
    whatever the files on disk.  The pattern of the path prefixer ignores
    case: it matches [href=] written in any case.  So [HREF="/about"] is
    prefixed and then is not completed even though [about.html] is there. *)
Theorem fixer_is_case_sensitive :
  (forall (s : str) (m : Match) (rest : str),
      match_at false href_pattern s = Some (m, rest) ->
      startswith s (lit "href=") = true)
  /\ (forall (fs : FileSystem) (root_dir : str) (c : ascii) (s : str),
         startswith (c :: s) (lit "href=") = false ->
         link_pass fs root_dir (c :: s) = c :: link_pass fs root_dir s)
  /\ (forall (fs : FileSystem) (root_dir content : str),
         (forall u t, content = u ++ t -> startswith t (lit "href=") = false) ->
         link_pass fs root_dir content = content)
  /\ (forall (a : str) (qc : ascii) (u rest : str),
         strip_same true (lit "href=") a = Some [] ->
         is_quote qc = true -> forallb not_newline u = true -> ~ In qc u ->
         match_at true html_pattern (a ++ qc :: "/"%char :: u ++ qc :: rest)
         = Some ([(0, a ++ qc :: "/"%char :: u ++ [qc]); (3, "/"%char :: u);
                  (2, [qc]); (1, a)], rest))
  /\ Forall (fun name =>
               link_pass (fs_of [] [lit "/site/about.html"]) (lit "/site")
                         (name ++ quoted (lit "/download/about"))
               = name ++ quoted (lit "/download/about"))
            [lit "HREF="; lit "Href="; lit "hREF="; lit "hreF="]
  /\ link_pass (fs_of [] [lit "/site/about.html"]) (lit "/site")
               (lit "href=" ++ quoted (lit "/download/about"))
     = lit "href=" ++ quoted (lit "/download/about.html")
  /\ process_content (fs_of [] [lit "/site/about.html"])
                     (lit "<a HREF=" ++ quoted (lit "/about") ++ lit ">") (lit "/site")
     = lit "<a HREF=" ++ quoted (lit "/download/about") ++ lit ">".
Proof.
  assert (forall s m rest, match_at false href_pattern s = Some (m, rest) ->
                           startswith s (lit "href=") = true) as Hhead.
  { intros s m rest H.
    apply href_match_inv in H as (qc & url & _ & _ & _ & -> & _).
    apply startswith_app. }
  split; [exact Hhead|]. split; [|split; [|split]].
  - intros fs root_dir c s Hno. unfold link_pass. apply sub_skip.
    destruct (match_at false href_pattern (c :: s)) as [[m rest]|] eqn:Hm; [|reflexivity].
    apply Hhead in Hm. congruence.
  - intros fs root_dir content Hno. unfold link_pass.
    apply sub_unchanged. intros u t m rest E Hm.
    apply Hhead in Hm. rewrite (Hno u t E) in Hm. discriminate.
  - intros a qc u rest Ha Hq Hu Hnq.
    apply (html_match_intro (lit "href=") a [] qc u rest); auto. now left.
  - split; [repeat constructor; vm_compute; reflexivity|].
    split; vm_compute; reflexivity.
Qed.

Lemma fixer_is_case_sensitive_witness :
  match_at false href_pattern (lit "href=" ++ quoted (lit "/download/about"))
    = Some ([(0, lit "href=" ++ quoted (lit "/download/about"));
             (2, lit "/download/about"); (1, [dquote])], [])
  /\ startswith (lit "href=" ++ quoted (lit "/download/about")) (lit "href=") = true
  /\ match_at false href_pattern (lit "HREF=" ++ quoted (lit "/download/about")) = None.
Proof.
  split; [vm_compute; reflexivity|]. split; [|vm_compute; reflexivity].
  apply (proj1 fixer_is_case_sensitive
               (lit "href=" ++ quoted (lit "/download/about"))
               [(0, lit "href=" ++ quoted (lit "/download/about"));
                (2, lit "/download/about"); (1, [dquote])] []).
  vm_compute. reflexivity.
Defined.

(** C10: when the HTML pattern matches and the callback rewrites the match,
    the white space that stood between the [=] of the attribute and the
    opening quote is not in the result: the match was the name with its
    [=], the white space, the quote, the path and the quote; what the pass
    puts in its place is the name with its [=], at once the quote, the
    prefixed path and the quote.  So [href= "/a"] becomes
    [href="/download/a"], while the white space of a match that is not
    rewritten stays. *)
Theorem rewritten_match_loses_space :
  (forall (s : str) (m : Match) (rest : str),
      match_at true html_pattern s = Some (m, rest) ->
      startswith (group m 3) (lit "//") = false ->
      startswith (group m 3) PATH_PREFIX = false ->
      exists name ws qc,
        group m 1 = name ++ lit "="
        /\ forallb is_space ws = true
        /\ is_quote qc = true
        /\ s = ((name ++ lit "=") ++ ws ++ [qc] ++ group m 3 ++ [qc]) ++ rest
        /\ group m 0 = (name ++ lit "=") ++ ws ++ [qc] ++ group m 3 ++ [qc]
        /\ replace_callback m
           = (name ++ lit "=") ++ [qc] ++ (lit "/download" ++ group m 3) ++ [qc]
        /\ html_pass s
           = ((name ++ lit "=") ++ [qc] ++ (lit "/download" ++ group m 3) ++ [qc])
               ++ html_pass rest)
  /\ html_pass (lit "<a href= " ++ quoted (lit "/a") ++ lit ">")
     = lit "<a href=" ++ quoted (lit "/download/a") ++ lit ">"
  /\ html_pass (lit "<a href=" ++ [newline] ++ lit "  '/a'>") = lit "<a href='/download/a'>"
  /\ html_pass (lit "<a href= " ++ quoted (lit "/download/a") ++ lit ">")
     = lit "<a href= " ++ quoted (lit "/download/a") ++ lit ">".
Proof.
  split; [|repeat split; vm_compute; reflexivity].
  intros s m rest Hm H2 H3.
  pose proof (html_pass_step _ _ _ Hm) as Hstep.
  pose proof (match_at_full _ _ _ _ _ Hm) as Hfull.
  apply html_match_inv in Hm
    as (name & a & ws & qc & u & Hin & Ha & Hws & Hq & _ & _ & _ & ->).
  destruct (attribute_name_ends _ _ Hin Ha) as [a' ->].
  exists a', ws, qc.
  split; [reflexivity|]. split; [exact Hws|]. split; [exact Hq|].
  split; [rewrite Hfull; unfold group; simpl; now reassoc|].
  split; [unfold group; simpl; now reassoc|].
  rewrite Hstep, (replace_callback_rewrites _ H2 H3). split; reflexivity.
Qed.

Lemma rewritten_match_loses_space_witness :
  match_at true html_pattern (lit "href= " ++ quoted (lit "/a") ++ lit ">")
    = Some (spaced_match, lit ">")
  /\ exists name ws qc,
       group spaced_match 1 = name ++ lit "="
       /\ forallb is_space ws = true
       /\ is_quote qc = true
       /\ lit "href= " ++ quoted (lit "/a") ++ lit ">"
          = ((name ++ lit "=") ++ ws ++ [qc] ++ group spaced_match 3 ++ [qc]) ++ lit ">"
       /\ group spaced_match 0 = (name ++ lit "=") ++ ws ++ [qc] ++ group spaced_match 3 ++ [qc]
       /\ replace_callback spaced_match
          = (name ++ lit "=") ++ [qc] ++ (lit "/download" ++ group spaced_match 3) ++ [qc]
       /\ html_pass (lit "href= " ++ quoted (lit "/a") ++ lit ">")
          = ((name ++ lit "=") ++ [qc] ++ (lit "/download" ++ group spaced_match 3) ++ [qc])
              ++ html_pass (lit ">").
Proof.
  split; [vm_compute; reflexivity|].
  apply (proj1 rewritten_match_loses_space
               (lit "href= " ++ quoted (lit "/a") ++ lit ">") spaced_match (lit ">"));
    vm_compute; reflexivity.
Defined.

(** * Further properties of the code *)

(** ** What the three patterns match *)

Lemma opt_quote_slash (q x : str) :
  opt_quote q = true <-> after_quote (q ++ "/"%char :: x) = (q, "/"%char :: x).
Proof.
  split.
  - destruct q as [|c [|d q]]; simpl; try discriminate; [reflexivity|].
    now intros ->.
  - intros H. destruct (after_quote_fst _ _ _ H) as [[-> _]|(c & -> & Hq & _)];
      [reflexivity | exact Hq].
Qed.

Lemma opt_quote_close (q ws x : str) :
  forallb is_space ws = true ->
  opt_quote q = true <-> after_quote (q ++ ws ++ ")"%char :: x) = (q, ws ++ ")"%char :: x).
Proof.
  intros Hws. split.
  - destruct q as [|c [|d q]]; simpl; try discriminate.
    + intros _. destruct ws as [|c ws]; [reflexivity|]. simpl in *.
      apply andb_true_iff in Hws as [Hc _]. now rewrite (space_not_quote _ Hc).
    + now intros ->.
  - intros H. destruct (after_quote_fst _ _ _ H) as [[-> _]|(c & -> & Hq & _)];
      [reflexivity | exact Hq].
Qed.

(** X1: the HTML pattern matches at the start of a text exactly when the text
    starts with one of the five attribute names followed by [=], in any case
    of letters, then white space (possibly none), a quote, a slash, a run of
    characters with no line break and no such quote, and the same quote
    again.  Group 1 is the name with its [=], group 2 the quote, group 3 the
    path from its slash on; the white space is in no group. *)
Theorem html_pattern_matches (s : str) (m : Match) (rest : str) :
  match_at true html_pattern s = Some (m, rest) <->
  exists name a ws qc u,
    In name attribute_names /\ strip_same true name a = Some []
    /\ forallb is_space ws = true /\ is_quote qc = true
    /\ forallb not_newline u = true /\ ~ In qc u
    /\ s = a ++ ws ++ qc :: "/"%char :: u ++ qc :: rest
    /\ m = [(0, a ++ ws ++ qc :: "/"%char :: u ++ [qc]); (3, "/"%char :: u);
            (2, [qc]); (1, a)].
Proof.
  split; [apply html_match_inv|].
  intros (name & a & ws & qc & u & Hin & Ha & Hws & Hq & Hu & Hnq & -> & ->).
  now apply (html_match_intro name).
Qed.

Lemma html_pattern_matches_witness :
  match_at true html_pattern (lit "SRC= '/a.png' alt") =
  Some ([(0, lit "SRC= '/a.png'"); (3, lit "/a.png"); (2, lit "'"); (1, lit "SRC=")],
        lit " alt").
Proof.
  apply (proj2 (html_pattern_matches _ _ _)).
  exists (lit "src="), (lit "SRC="), (lit " "), squote, (lit "a.png").
  repeat split; try reflexivity.
  - simpl. auto.
  - vm_compute. intuition discriminate.
Defined.

(** X2: the CSS pattern matches at the start of a text exactly when the text
    starts with [url(] in any case of letters, then white space (possibly
    none), at most one quote, a slash, a run of characters with no line
    break, at most one quote, white space (possibly none) and [)], the run
    being the shortest after which the rest can close.  Groups 1 to 5 are
    the opening with its white space, the opening quote, the path, the
    closing quote, and the closing white space with the bracket. *)
Theorem css_pattern_matches (s : str) (m : Match) (rest : str) :
  match_at true css_pattern s = Some (m, rest) <->
  exists a ws1 q2 u q4 ws2,
    strip_same true (lit "url(") a = Some []
    /\ forallb is_space ws1 = true /\ opt_quote q2 = true
    /\ forallb not_newline u = true
    /\ opt_quote q4 = true /\ forallb is_space ws2 = true
    /\ (forall u1 u2, u = u1 ++ u2 -> u2 <> [] ->
          css_closes (u2 ++ q4 ++ ws2 ++ ")"%char :: rest) = false)
    /\ s = a ++ ws1 ++ q2 ++ "/"%char :: u ++ q4 ++ ws2 ++ ")"%char :: rest
    /\ m = [(0, a ++ ws1 ++ q2 ++ "/"%char :: u ++ q4 ++ ws2 ++ [")"%char]);
            (5, ws2 ++ [")"%char]); (4, q4); (3, "/"%char :: u); (2, q2); (1, a ++ ws1)].
Proof.
  split.
  - intros H. apply css_match_inv in H
      as (a & ws1 & q2 & u & q4 & ws2 & Ha & Hws1 & Eq2 & Hu & Eq4 & Hws2 & Hmin & E & Em).
    exists a, ws1, q2, u, q4, ws2.
    apply opt_quote_slash in Eq2. apply (opt_quote_close _ _ _ Hws2) in Eq4. auto 10.
  - intros (a & ws1 & q2 & u & q4 & ws2 & Ha & Hws1 & Hq2 & Hu & Hq4 & Hws2 & Hmin & -> & ->).
    apply css_match_intro; auto.
    + now apply opt_quote_slash.
    + now apply opt_quote_close.
Qed.

Lemma css_pattern_matches_witness :
  exists a ws1 q2 u q4 ws2,
    strip_same true (lit "url(") a = Some []
    /\ forallb is_space ws1 = true /\ opt_quote q2 = true
    /\ forallb not_newline u = true
    /\ opt_quote q4 = true /\ forallb is_space ws2 = true
    /\ (forall u1 u2, u = u1 ++ u2 -> u2 <> [] ->
          css_closes (u2 ++ q4 ++ ws2 ++ ")"%char :: lit ";") = false)
    /\ lit "Url( '/a b' );" = a ++ ws1 ++ q2 ++ "/"%char :: u ++ q4 ++ ws2 ++ ")"%char :: lit ";"
    /\ [(0, lit "Url( '/a b' )"); (5, lit " )"); (4, lit "'"); (3, lit "/a b"); (2, lit "'");
        (1, lit "Url( ")]
       = [(0, a ++ ws1 ++ q2 ++ "/"%char :: u ++ q4 ++ ws2 ++ [")"%char]);
          (5, ws2 ++ [")"%char]); (4, q4); (3, "/"%char :: u); (2, q2); (1, a ++ ws1)].
Proof.
  apply (proj1 (css_pattern_matches (lit "Url( '/a b' );") _ (lit ";"))).
  vm_compute. reflexivity.
Defined.

Lemma plain_char_open (c : ascii) (x : str) : plain_char c = true -> css_closes (c :: x) = false.
Proof.
  unfold plain_char, css_closes, closes_now. intros H.
  apply andb_true_iff in H as [H _]. apply andb_true_iff in H as [H Hc].
  apply andb_true_iff in H as [Hq Hs].
  apply negb_true_iff in Hq, Hs, Hc. simpl. rewrite Hq. simpl. now rewrite Hs.
Qed.

Lemma plain_not_newline (u : str) : forallb plain_char u = true -> forallb not_newline u = true.
Proof.
  induction u as [|c u IH]; simpl; [reflexivity|]. intros H.
  apply andb_true_iff in H as [Hc Hu]. rewrite (IH Hu), andb_true_r.
  unfold plain_char in Hc. now apply andb_true_iff in Hc as [_ Hc].
Qed.

(** X3: the CSS pattern does not ask the two quotes to agree.  When the path
    after its slash is made of characters that are no quote, no white space,
    no [)] and no line break, the pattern matches with any choice of opening
    quote and closing quote, each one of the two quote characters or
    nothing. *)
Theorem css_quotes_need_not_pair (a ws1 q2 u q4 ws2 rest : str) :
  strip_same true (lit "url(") a = Some [] ->
  forallb is_space ws1 = true -> opt_quote q2 = true ->
  forallb plain_char u = true ->
  opt_quote q4 = true -> forallb is_space ws2 = true ->
  match_at true css_pattern (a ++ ws1 ++ q2 ++ "/"%char :: u ++ q4 ++ ws2 ++ ")"%char :: rest)
  = Some ([(0, a ++ ws1 ++ q2 ++ "/"%char :: u ++ q4 ++ ws2 ++ [")"%char]);
           (5, ws2 ++ [")"%char]); (4, q4); (3, "/"%char :: u); (2, q2); (1, a ++ ws1)],
          rest).
Proof.
  intros Ha Hws1 Hq2 Hu Hq4 Hws2.
  apply css_match_intro; auto using plain_not_newline.
  - now apply opt_quote_slash.
  - now apply opt_quote_close.
  - intros u1 u2 -> Hne. destruct u2 as [|c u2]; [congruence|].
  rewrite forallb_app in Hu. apply andb_true_iff in Hu as [_ Hu]. simpl in Hu.
  apply andb_true_iff in Hu as [Hc _]. now apply plain_char_open.
Qed.

Lemma css_quotes_need_not_pair_witness :
  match_at true css_pattern (lit "URL( " ++ [dquote] ++ lit "/img/a.png' );") =
  Some ([(0, lit "URL( " ++ [dquote] ++ lit "/img/a.png' )"); (5, lit " )"); (4, lit "'");
         (3, lit "/img/a.png"); (2, [dquote]); (1, lit "URL( ")], lit ";").
Proof.
  apply (css_quotes_need_not_pair (lit "URL(") (lit " ") [dquote] (lit "img/a.png")
                                  (lit "'") (lit " ") (lit ";")); reflexivity.
Defined.

(** X4: the pattern of the link fixer matches at the start of a text exactly
    when the text starts with [href=] in lower case, at once followed by a
    quote, a run of characters with no line break and no such quote, and the
    same quote again.  Group 1 is the quote and group 2 the run, which may
    be empty. *)
Theorem href_pattern_matches (s : str) (m : Match) (rest : str) :
  match_at false href_pattern s = Some (m, rest) <->
  exists qc url,
    is_quote qc = true /\ forallb not_newline url = true /\ ~ In qc url
    /\ s = lit "href=" ++ qc :: url ++ qc :: rest
    /\ m = [(0, lit "href=" ++ qc :: url ++ [qc]); (2, url); (1, [qc])].
Proof.
  split; [apply href_match_inv|].
  intros (qc & url & Hq & Hu & Hnq & -> & ->).
  now apply href_match_intro.
Qed.

Lemma href_pattern_matches_witness :
  match_at false href_pattern (lit "href='a b'>") =
  Some ([(0, lit "href='a b'"); (2, lit "a b"); (1, lit "'")], lit ">").
Proof.
  apply (proj2 (href_pattern_matches _ _ _)).
  exists squote, (lit "a b"). repeat split; try reflexivity.
  vm_compute. intuition discriminate.
Defined.

(** ** The domain substitutor *)

(** X5: after the domain substitutor no occurrence of the old domain is left
    in the text, and the substitutor gives a text back unchanged exactly
    when the text held no occurrence of the old domain. *)
Theorem domain_pass_removes_all (s : str) :
  domain_free (domain_pass s) /\ (domain_pass s = s <-> domain_free s).
Proof.
  assert (domain_free (domain_pass s)) as H
    by apply (Replaced_free s), replace_Replaced, OLD_DOMAIN_nonempty.
  split; [exact H|]. split; [|apply domain_free_fixed].
  intros E. now rewrite <- E.
Qed.

Lemma domain_free_tails (s : str) :
  forallb (fun t => negb (startswith t OLD_DOMAIN)) (tails s) = true -> domain_free s.
Proof.
  intros H u t E. destruct t as [|c t]; [reflexivity|].
  rewrite forallb_forall in H. apply negb_true_iff, H.
  rewrite E. apply tails_In. discriminate.
Qed.

Lemma domain_pass_removes_all_witness :
  domain_pass (lit "see mychart-app.org") = lit "see mychart-app.org".
Proof.
  apply (proj2 (proj2 (domain_pass_removes_all _))), domain_free_tails. reflexivity.
Defined.

(** ** Text that no pattern can match *)

Lemma Replaced_chars (old new s t : str) (c : ascii) :
  Replaced old new s t -> In c t -> In c s \/ In c new.
Proof.
  induction 1 as [|s t _ IH|x s t _ _ IH]; intros Hin.
  - contradiction.
  - apply in_app_or in Hin as [Hin|Hin]; [now right|].
    destruct (IH Hin); [left; apply in_or_app|]; auto.
  - destruct Hin as [->|Hin]; [left; now left|].
    destruct (IH Hin); [left; now right | now right].
Qed.

Lemma chr_eq_open (ic : bool) (c : ascii) :
  chr_eq ic "("%char c = Ascii.eqb c "("%char.
Proof.
  destruct ic; [|reflexivity].
  destruct c as [[] [] [] [] [] [] [] []]; reflexivity.
Qed.

Lemma html_match_quote (t : str) (m : Match) (rest : str) :
  match_at true html_pattern t = Some (m, rest) ->
  exists qc, is_quote qc = true /\ In qc t.
Proof.
  intros H. apply html_match_inv in H as (? & a & ws & qc & u & _ & _ & _ & Hq & _ & _ & -> & _).
  exists qc. split; [exact Hq|]. apply in_or_app. right. apply in_or_app. right. now left.
Qed.

Lemma href_match_quote (t : str) (m : Match) (rest : str) :
  match_at false href_pattern t = Some (m, rest) ->
  exists qc, is_quote qc = true /\ In qc t.
Proof.
  intros H. apply href_match_inv in H as (qc & url & Hq & _ & _ & -> & _).
  exists qc. split; [exact Hq|]. apply in_or_app. right. now left.
Qed.

Lemma css_match_bracket (t : str) (m : Match) (rest : str) :
  match_at true css_pattern t = Some (m, rest) -> In "("%char t.
Proof.
  intros H. apply css_match_inv in H
    as (a & ws1 & q2 & u & q4 & ws2 & Ha & _ & _ & _ & _ & _ & _ & -> & _).
  apply (strip_same_snoc true (lit "url") "("%char) in Ha as (a' & c & -> & Hc & _).
  rewrite chr_eq_open in Hc. apply Ascii.eqb_eq in Hc. subst c.
  apply in_or_app. left. apply in_or_app. right. now left.
Qed.

(** X6: on a text with no single quote, no double quote and no opening
    bracket, [process_content] does nothing but the domain substitution,
    whatever the file system holds. *)
Theorem plain_text_only_domain (fs : FileSystem) (s root_dir : str) :
  (forall c, In c s -> is_quote c = false) ->
  ~ In "("%char s ->
  process_content fs s root_dir = domain_pass s.
Proof.
  intros Hq Hb.
  assert (forall c, In c (domain_pass s) -> is_quote c = false) as Hq'.
  { intros c Hin.
    apply (Replaced_chars OLD_DOMAIN NEW_DOMAIN s) in Hin;
      [|apply replace_Replaced, OLD_DOMAIN_nonempty].
    destruct Hin as [Hin|Hin]; [now apply Hq|].
    simpl in Hin. repeat (destruct Hin as [<-|Hin]; [reflexivity|]). contradiction. }
  assert (~ In "("%char (domain_pass s)) as Hb'.
  { intros Hin.
    apply (Replaced_chars OLD_DOMAIN NEW_DOMAIN s) in Hin;
      [|apply replace_Replaced, OLD_DOMAIN_nonempty].
    destruct Hin as [Hin|Hin]; [contradiction|].
    simpl in Hin. repeat (destruct Hin as [Hin|Hin]; [discriminate|]). contradiction. }
  rewrite process_content_passes. unfold path_prefixer.
  assert (html_pass (domain_pass s) = domain_pass s) as ->.
  { apply sub_unchanged. intros u t m rest E Hm. exfalso.
    apply html_match_quote in Hm as (qc & Hqc & Hin).
    rewrite (Hq' qc) in Hqc; [discriminate|]. rewrite E. apply in_or_app. now right. }
  assert (css_pass (domain_pass s) = domain_pass s) as ->.
  { apply sub_unchanged. intros u t m rest E Hm. exfalso.
    apply css_match_bracket in Hm. apply Hb'. rewrite E. apply in_or_app. now right. }
  apply sub_unchanged. intros u t m rest E Hm. exfalso.
  apply href_match_quote in Hm as (qc & Hqc & Hin).
  rewrite (Hq' qc) in Hqc; [discriminate|]. rewrite E. apply in_or_app. now right.
Qed.

Lemma plain_text_only_domain_witness :
  process_content (fs_of [] []) (lit "Visit mychart-app.com/help = now") (lit "/site")
  = domain_pass (lit "Visit mychart-app.com/help = now").
Proof.
  apply plain_text_only_domain.
  - intros c Hin. simpl in Hin.
    repeat (destruct Hin as [<-|Hin]; [reflexivity|]). contradiction.
  - intros Hin. simpl in Hin.
    repeat (destruct Hin as [Hin|Hin]; [discriminate|]). contradiction.
Defined.

(** ** What the two passes of the path prefixer change *)

Lemma sub_nil (ic : bool) (r : regex) (repl : Match -> str) :
  match_at ic r [] = None -> sub ic r repl [] = [].
Proof. intros H. unfold sub. simpl. now rewrite H. Qed.

(** A property of a text and its image that holds of the empty text, is
    kept when a character is copied and is kept when a match is replaced,
    holds of every text and what the scan makes of it. *)
Lemma sub_induction (ic : bool) (r : regex) (repl : Match -> str) (P : str -> str -> Prop) :
  (forall s m rest, match_at ic r s = Some (m, rest) -> length rest < length s) ->
  P [] [] ->
  (forall c s t, P s t -> P (c :: s) (c :: t)) ->
  (forall s m rest t, match_at ic r s = Some (m, rest) -> P rest t -> P s (repl m ++ t)) ->
  forall s, P s (sub ic r repl s).
Proof.
  intros Hcons Hnil Hkeep Hmatch s.
  remember (length s) as n eqn:Hn. revert s Hn.
  induction n as [n IH] using lt_wf_ind. intros s Hn.
  destruct (match_at ic r s) as [[m rest]|] eqn:Hm.
  - pose proof (Hcons _ _ _ Hm) as Hlt.
    rewrite (sub_match _ _ _ _ _ _ Hm Hlt).
    apply (Hmatch _ _ _ _ Hm). apply (IH (length rest)); [lia | reflexivity].
  - destruct s as [|c s].
    + now rewrite (sub_nil _ _ _ Hm).
    + rewrite (sub_skip _ _ _ _ _ Hm). apply Hkeep.
      apply (IH (length s)); [subst n; simpl; lia | reflexivity].
Qed.

Lemma Inserted_app (u s t : str) : Inserted s t -> Inserted (u ++ s) (u ++ t).
Proof. intros H. induction u as [|c u IH]; [exact H|]. simpl. now constructor. Qed.

Lemma Edited_app (u s t : str) : Edited s t -> Edited (u ++ s) (u ++ t).
Proof. intros H. induction u as [|c u IH]; [exact H|]. simpl. now constructor. Qed.

(** X7: the CSS pass deletes nothing and reorders nothing: its result is the
    text it was given with the prefix inserted in front of some of the
    slashes. *)
Theorem css_pass_only_inserts (s : str) : Inserted s (css_pass s).
Proof.
  unfold css_pass. apply sub_induction.
  - apply css_match_consumes.
  - constructor.
  - intros c s' t H. now constructor.
  - intros s' m rest t Hm IH.
    apply css_match_inv in Hm
      as (a & ws1 & q2 & u & q4 & ws2 & _ & _ & _ & _ & _ & _ & _ & -> & ->).
    set (m := [(0, a ++ ws1 ++ q2 ++ "/"%char :: u ++ q4 ++ ws2 ++ [")"%char]);
               (5, ws2 ++ [")"%char]); (4, q4); (3, "/"%char :: u); (2, q2); (1, a ++ ws1)]).
    destruct (startswith (group m 3) (lit "//")) eqn:H2;
      [|destruct (startswith (group m 3) PATH_PREFIX) eqn:H3].
    + rewrite (css_callback_keeps m (or_introl H2)).
      replace (group m 0 ++ t)
        with ((a ++ ws1 ++ q2 ++ "/"%char :: u ++ q4 ++ ws2 ++ [")"%char]) ++ t)
        by reflexivity.
      replace (a ++ ws1 ++ q2 ++ "/"%char :: u ++ q4 ++ ws2 ++ ")"%char :: rest)
        with ((a ++ ws1 ++ q2 ++ "/"%char :: u ++ q4 ++ ws2 ++ [")"%char]) ++ rest)
        by now reassoc.
      now apply Inserted_app.
    + rewrite (css_callback_keeps m (or_intror H3)).
      replace (group m 0 ++ t)
        with ((a ++ ws1 ++ q2 ++ "/"%char :: u ++ q4 ++ ws2 ++ [")"%char]) ++ t)
        by reflexivity.
      replace (a ++ ws1 ++ q2 ++ "/"%char :: u ++ q4 ++ ws2 ++ ")"%char :: rest)
        with ((a ++ ws1 ++ q2 ++ "/"%char :: u ++ q4 ++ ws2 ++ [")"%char]) ++ rest)
        by now reassoc.
      now apply Inserted_app.
    + rewrite (css_callback_rewrites m H2 H3).
      replace ((group m 1 ++ group m 2 ++ (lit "/download" ++ group m 3)
                  ++ group m 4 ++ group m 5) ++ t)
        with ((a ++ ws1 ++ q2) ++ PATH_PREFIX ++ "/"%char :: (u ++ q4 ++ ws2 ++ [")"%char]) ++ t)
        by (unfold group, m; simpl; now reassoc).
      replace (a ++ ws1 ++ q2 ++ "/"%char :: u ++ q4 ++ ws2 ++ ")"%char :: rest)
        with ((a ++ ws1 ++ q2) ++ "/"%char :: (u ++ q4 ++ ws2 ++ [")"%char]) ++ rest)
        by now reassoc.
      apply Inserted_app, Inserted_prefix. now apply Inserted_app.
Qed.

(** X8: the HTML pass changes a text only at quotes that are followed by a
    slash: there it may drop the white space in front of the quote and put
    the prefix between the quote and the slash.  Every other character is
    copied. *)
Theorem html_pass_only_edits (s : str) : Edited s (html_pass s).
Proof.
  unfold html_pass. apply sub_induction.
  - apply html_match_consumes.
  - constructor.
  - intros c s' t H. now constructor.
  - intros s' m rest t Hm IH.
    apply html_match_inv in Hm
      as (name & a & ws & qc & u & _ & _ & Hws & Hq & _ & _ & -> & ->).
    set (m := [(0, a ++ ws ++ qc :: "/"%char :: u ++ [qc]); (3, "/"%char :: u);
               (2, [qc]); (1, a)]).
    destruct (startswith (group m 3) (lit "//")) eqn:H2;
      [|destruct (startswith (group m 3) PATH_PREFIX) eqn:H3].
    + rewrite (replace_callback_keeps m (or_introl H2)).
      replace (group m 0 ++ t) with ((a ++ ws ++ qc :: "/"%char :: u ++ [qc]) ++ t)
        by reflexivity.
      replace (a ++ ws ++ qc :: "/"%char :: u ++ qc :: rest)
        with ((a ++ ws ++ qc :: "/"%char :: u ++ [qc]) ++ rest) by now reassoc.
      now apply Edited_app.
    + rewrite (replace_callback_keeps m (or_intror H3)).
      replace (group m 0 ++ t) with ((a ++ ws ++ qc :: "/"%char :: u ++ [qc]) ++ t)
        by reflexivity.
      replace (a ++ ws ++ qc :: "/"%char :: u ++ qc :: rest)
        with ((a ++ ws ++ qc :: "/"%char :: u ++ [qc]) ++ rest) by now reassoc.
      now apply Edited_app.
    + rewrite (replace_callback_rewrites m H2 H3).
      replace ((group m 1 ++ group m 2 ++ (lit "/download" ++ group m 3) ++ group m 2) ++ t)
        with (a ++ qc :: PATH_PREFIX ++ "/"%char :: (u ++ [qc]) ++ t)
        by (unfold group, m; simpl; now reassoc).
      replace (a ++ ws ++ qc :: "/"%char :: u ++ qc :: rest)
        with (a ++ ws ++ qc :: "/"%char :: (u ++ [qc]) ++ rest) by now reassoc.
      apply Edited_app, Edited_rewrite; auto. now apply Edited_app.
Qed.

(** ** What the link pass changes *)

Lemma Relinked_app (fs : FileSystem) (root_dir u s t : str) :
  Relinked fs root_dir s t -> Relinked fs root_dir (u ++ s) (u ++ t).
Proof. intros H. induction u as [|c u IH]; [exact H|]. simpl. now constructor. Qed.

(** X9: the link pass changes a text only at occurrences of [href=], a quote,
    a URL and the quote again where the URL starts with the prefix, has a
    clean path that is not empty, and names no directory but, with [.html]
    added, a file: there the URL is replaced by the completed one.  Every
    other character is copied. *)
Theorem link_pass_only_completes (fs : FileSystem) (root_dir s : str) :
  Relinked fs root_dir s (link_pass fs root_dir s).
Proof.
  unfold link_pass. apply sub_induction.
  - apply href_match_consumes.
  - constructor.
  - intros c s' t H. now constructor.
  - intros s' m rest t Hm IH.
    apply href_match_inv in Hm as (qc & url & Hq & _ & _ & -> & ->).
    set (m := [(0, lit "href=" ++ qc :: url ++ [qc]); (2, url); (1, [qc])]).
    destruct (fix_html_link_cases fs root_dir m) as [E|[Hrw E]]; rewrite E.
    + replace (group m 0 ++ t) with ((lit "href=" ++ qc :: url ++ [qc]) ++ t) by reflexivity.
      replace (lit "href=" ++ qc :: url ++ qc :: rest)
        with ((lit "href=" ++ qc :: url ++ [qc]) ++ rest) by now reassoc.
      now apply Relinked_app.
    + replace ((lit "href=" ++ group m 1 ++ new_url_of (group m 2) ++ group m 1) ++ t)
        with (lit "href=" ++ qc :: new_url_of url ++ qc :: t)
        by (unfold group, m; simpl; now reassoc).
      now apply Relinked_fix.
Qed.

(** ** The clean path and the target of a link *)

Lemma mem_slash (c : ascii) : mem c (lit "/") = is_slash c.
Proof. unfold mem, is_slash. simpl. apply orb_false_r. Qed.

Lemma lstrip_split (s : str) :
  exists v, s = v ++ lstrip s (lit "/") /\ forallb is_slash v = true.
Proof.
  induction s as [|c s (v & E & Hv)]; [now exists []|]. cbn [lstrip].
  rewrite mem_slash. destruct (is_slash c) eqn:Hc.
  - exists (c :: v). cbn [app forallb]. rewrite Hc, Hv. split; [now f_equal | reflexivity].
  - now exists [].
Qed.

Lemma lstrip_head (s : str) : startswith (lstrip s (lit "/")) (lit "/") = false.
Proof.
  induction s as [|c s IH]; [reflexivity|]. cbn [lstrip]. rewrite mem_slash.
  destruct (is_slash c) eqn:Hc; [exact IH|]. simpl.
  unfold is_slash in Hc. now rewrite Hc.
Qed.

Lemma lstrip_slashes (s : str) : forallb is_slash s = true -> lstrip s (lit "/") = [].
Proof.
  induction s as [|c s IH]; [reflexivity|]. cbn [lstrip forallb]. rewrite mem_slash.
  intros H. apply andb_true_iff in H as [Hc Hs]. rewrite Hc. now apply IH.
Qed.

Lemma rstrip_split (s : str) :
  exists v, s = rstrip s (lit "/") ++ v /\ forallb is_slash v = true.
Proof.
  unfold rstrip. destruct (lstrip_split (rev s)) as (v & E & Hv).
  exists (rev v). split.
  - apply (f_equal (@rev _)) in E. now rewrite rev_involutive, rev_app_distr in E.
  - apply forallb_forall. intros x Hx. apply in_rev in Hx.
    rewrite forallb_forall in Hv. now apply Hv.
Qed.

Lemma rstrip_guard (s : str) :
  (if endswith s (lit "/") then rstrip s (lit "/") else s) = rstrip s (lit "/").
Proof.
  unfold endswith, rstrip. change (rev (lit "/")) with (lit "/").
  rewrite <- (lstrip_guard (rev s)).
  destruct (startswith (rev s) (lit "/")); [reflexivity | now rewrite rev_involutive].
Qed.

Lemma rstrip_tail (s : str) : endswith (rstrip s (lit "/")) (lit "/") = false.
Proof. unfold endswith, rstrip. rewrite rev_involutive. apply lstrip_head. Qed.

Lemma rstrip_head (s : str) :
  startswith s (lit "/") = false -> startswith (rstrip s (lit "/")) (lit "/") = false.
Proof.
  intros H. destruct (rstrip_split s) as (v & E & _).
  destruct (rstrip s (lit "/")) as [|c r]; [reflexivity|].
  rewrite E in H. exact H.
Qed.

(** The clean path: what stands after the prefix, up to the first marker,
    with the slashes at both ends taken off. *)
Lemma clean_path_spec (url : str) :
  clean_path_of url
  = rstrip (lstrip (before_marker (slice_from url (length PATH_PREFIX))) (lit "/")) (lit "/").
Proof.
  unfold clean_path_of. rewrite !split_head, take_until_twice.
  now rewrite lstrip_guard, rstrip_guard.
Qed.

Lemma clean_path_head (url : str) : startswith (clean_path_of url) (lit "/") = false.
Proof. rewrite clean_path_spec. apply rstrip_head, lstrip_head. Qed.

Lemma lstrip_In (c : ascii) (s : str) : In c (lstrip s (lit "/")) -> In c s.
Proof.
  destruct (lstrip_split s) as (v & E & _). intros H. rewrite E. apply in_or_app. now right.
Qed.

Lemma rstrip_In (c : ascii) (s : str) : In c (rstrip s (lit "/")) -> In c s.
Proof.
  destruct (rstrip_split s) as (v & E & _). intros H. rewrite E. apply in_or_app. now left.
Qed.

(** X10: the clean path that the link fixer computes from a URL neither starts
    nor ends with a slash, holds no [?] and no [#], and is made of
    characters of the URL. *)
Theorem clean_path_shape (url : str) :
  startswith (clean_path_of url) (lit "/") = false
  /\ endswith (clean_path_of url) (lit "/") = false
  /\ existsb is_marker (clean_path_of url) = false
  /\ (forall c, In c (clean_path_of url) -> In c url).
Proof.
  rewrite clean_path_spec.
  split; [apply rstrip_head, lstrip_head|]. split; [apply rstrip_tail|].
  assert (forall c, In c (rstrip (lstrip (before_marker (slice_from url (length PATH_PREFIX)))
                                         (lit "/")) (lit "/")) ->
                    In c (before_marker (slice_from url (length PATH_PREFIX)))) as Hin
    by (intros c H; now apply lstrip_In, rstrip_In).
  split.
  - destruct (existsb is_marker _) eqn:E; [|reflexivity].
    apply existsb_exists in E as (c & Hc & Hm). apply Hin in Hc.
    assert (existsb is_marker (before_marker (slice_from url (length PATH_PREFIX))) = true)
      by (apply existsb_exists; now exists c).
    now rewrite before_marker_free in H.
  - intros c H. apply Hin, before_marker_In in H.
    unfold slice_from in H. rewrite <- (firstn_skipn (length PATH_PREFIX) url).
    apply in_or_app. now right.
Qed.

(** X11: when the URL of a matched link does not start with the prefix, or
    has only slashes (or nothing) between the prefix and its first [?] or
    [#], the link fixer gives the occurrence back unchanged, whatever the
    file system holds. *)
Theorem fixer_skips_without_probing (fs : FileSystem) (root_dir s : str)
        (m : Match) (rest : str) :
  match_at false href_pattern s = Some (m, rest) ->
  startswith (group m 2) PATH_PREFIX = false
  \/ forallb is_slash (before_marker (slice_from (group m 2) (length PATH_PREFIX))) = true ->
  fix_html_link fs root_dir m = group m 0
  /\ link_pass fs root_dir s = group m 0 ++ link_pass fs root_dir rest.
Proof.
  intros Hm H.
  assert (fix_html_link fs root_dir m = group m 0) as E.
  { unfold fix_html_link. destruct H as [H|H]; [now rewrite H|].
    destruct (negb (startswith (group m 2) PATH_PREFIX)); [reflexivity|].
    now rewrite clean_path_spec, (lstrip_slashes _ H). }
  split; [exact E|]. now rewrite (link_pass_step _ _ _ _ _ Hm), E.
Qed.

Lemma fixer_skips_without_probing_witness :
  link_pass (fs_of [] [lit "/site/.html"; lit "/site/index.html"]) (lit "/site")
            (lit "href='/download/?p=1'>")
  = lit "href='/download/?p=1'" ++ link_pass (fs_of [] [lit "/site/.html"; lit "/site/index.html"])
                                            (lit "/site") (lit ">").
Proof.
  apply (fixer_skips_without_probing _ _ (lit "href='/download/?p=1'>")
           [(0, lit "href='/download/?p=1'"); (2, lit "/download/?p=1"); (1, lit "'")] (lit ">")).
  - vm_compute. reflexivity.
  - right. reflexivity.
Defined.

(** X12: the path at which the link fixer looks is the root directory, one
    separator unless the root is empty or ends with one, and the clean path;
    it always starts with the root directory. *)
Theorem target_under_root (root_dir url : str) :
  potential_file_path_of root_dir url
  = root_dir
      ++ (if (match root_dir with [] => true | _ :: _ => false end) || endswith root_dir (lit "/")
          then [] else lit "/")
      ++ clean_path_of url
  /\ startswith (potential_file_path_of root_dir url) root_dir = true.
Proof.
  assert (potential_file_path_of root_dir url
          = root_dir
              ++ (if (match root_dir with [] => true | _ :: _ => false end)
                     || endswith root_dir (lit "/")
                  then [] else lit "/")
              ++ clean_path_of url) as E.
  { unfold potential_file_path_of.
    change (replace (clean_path_of url) (lit "/") os_sep)
      with (replace (clean_path_of url) (lit "/") (lit "/")).
    rewrite (replace_same (lit "/") (clean_path_of url)) by discriminate.
    unfold os_path_join. change os_sep with (lit "/").
    rewrite (clean_path_head url).
    now destruct ((match root_dir with [] => true | _ :: _ => false end)
                  || endswith root_dir (lit "/")). }
  split; [exact E|]. rewrite E. apply startswith_app.
Qed.

(** ** The completed link *)

Lemma after_first_app (c : ascii) (b x : str) :
  ~ In c b -> after_first c (b ++ x) = after_first c x.
Proof.
  induction b as [|y b IH]; intros Hn; [reflexivity|]. simpl.
  destruct (Ascii.eqb_spec y c) as [->|_]; [exfalso; apply Hn; now left|].
  apply IH. intros H. apply Hn. now right.
Qed.

Lemma marker_free_In (c : ascii) (b : str) :
  existsb is_marker b = false -> is_marker c = true -> ~ In c b.
Proof.
  intros Hb Hc Hin.
  assert (existsb is_marker b = true) by (apply existsb_exists; now exists c).
  congruence.
Qed.

Lemma url_base_free (url : str) : existsb is_marker (url_base_of url) = false.
Proof. rewrite url_base_spec. apply without_final_slash_free, before_marker_free. Qed.

Lemma mem_after_first (c : ascii) (s : str) :
  mem c s = false -> ~ In c s.
Proof.
  unfold mem. intros H Hin.
  assert (existsb (Ascii.eqb c) s = true)
    by (apply existsb_exists; exists c; split; [exact Hin | apply Ascii.eqb_refl]).
  congruence.
Qed.

Lemma after_first_absent (c : ascii) (s : str) : mem c s = false -> after_first c s = [].
Proof.
  unfold mem. induction s as [|y s IH]; [reflexivity|]. cbn [existsb after_first].
  intros H. apply orb_false_iff in H as [Hy Hs].
  rewrite Ascii.eqb_sym, Hy. now apply IH.
Qed.

(** X13: the completed URL read back.  Up to its first marker it is the old
    URL up to its first marker, without one final slash and with [.html]
    added.  When the old URL had a [?], what follows the first [?] is the
    same in both; when it had none, the new one has none and what follows
    the first [#] is the same in both. *)
Theorem new_url_keeps_query (url : str) :
  before_marker (new_url_of url) = without_final_slash (before_marker url) ++ lit ".html"
  /\ (mem "?"%char url = true ->
      after_first "?"%char (new_url_of url) = after_first "?"%char url)
  /\ (mem "?"%char url = false ->
      mem "?"%char (new_url_of url) = false
      /\ after_first "#"%char (new_url_of url) = after_first "#"%char url).
Proof.
  pose proof (url_base_free url) as Hfree.
  unfold new_url_of. split; [|split].
  - rewrite (before_marker_app _ _ Hfree).
    change (before_marker (lit ".html" ++ suffix_of url))
      with (lit ".html" ++ before_marker (suffix_of url)).
    now rewrite suffix_marker, app_nil_r, url_base_spec.
  - intros Hq. rewrite after_first_app by (now apply (marker_free_In _ _ Hfree)).
    rewrite suffix_spec, Hq. reflexivity.
  - intros Hq. rewrite suffix_spec, Hq. split.
    + destruct (mem "?"%char (url_base_of url ++ lit ".html" ++ _)) eqn:E; [|reflexivity].
      apply mem_In in E. apply in_app_or in E as [E|E];
        [now apply (marker_free_In _ _ Hfree) in E|].
      apply in_app_or in E as [E|E].
      * simpl in E. repeat (destruct E as [E|E]; [discriminate|]). contradiction.
      * destruct (mem "#"%char url) eqn:Hh; [|contradiction].
        destruct E as [E|E]; [discriminate|].
        apply after_first_In in E. now apply mem_after_first in Hq.
    + rewrite after_first_app by (now apply (marker_free_In _ _ Hfree)).
      destruct (mem "#"%char url) eqn:Hh; [reflexivity|].
      now rewrite (after_first_absent _ _ Hh).
Qed.

Lemma new_url_keeps_query_witness :
  after_first "?"%char (new_url_of (lit "/download/blog/news/?x=1#top")) = lit "x=1#top".
Proof.
  rewrite (proj1 (proj2 (new_url_keeps_query _))); reflexivity.
Defined.

(** X14: the completed URL of a URL that starts with the prefix starts with
    the prefix too, is made of characters of the old URL and of [.html],
    and has a clean path that ends in [.html]. *)
Theorem completed_link_shape (url : str) :
  startswith url PATH_PREFIX = true ->
  startswith (new_url_of url) PATH_PREFIX = true
  /\ (forall c, In c (new_url_of url) -> In c url \/ In c (lit ".html"))
  /\ exists p, clean_path_of (new_url_of url) = p ++ lit ".html".
Proof.
  intros H. apply startswith_inv in H as [t ->].
  destruct (url_base_prefixed t) as (b & Hb & Hfree).
  split; [|split].
  - unfold new_url_of. rewrite Hb, <- app_assoc. apply startswith_app.
  - intros c. apply new_url_In.
  - exists (lstrip b (lit "/")).
    unfold clean_path_of, new_url_of. rewrite Hb.
    change (slice_from ((PATH_PREFIX ++ b) ++ lit ".html" ++ suffix_of (PATH_PREFIX ++ t))
                       (length PATH_PREFIX))
      with (b ++ lit ".html" ++ suffix_of (PATH_PREFIX ++ t)).
    rewrite !split_head, take_until_twice.
    rewrite (before_marker_app _ _ Hfree).
    change (before_marker (lit ".html" ++ suffix_of (PATH_PREFIX ++ t)))
      with (lit ".html" ++ before_marker (suffix_of (PATH_PREFIX ++ t))).
    rewrite suffix_marker, app_nil_r.
    rewrite lstrip_guard, lstrip_html.
    unfold endswith. rewrite rev_app_distr. reflexivity.
Qed.

Lemma completed_link_shape_witness :
  startswith (new_url_of (lit "/download/about/?x")) PATH_PREFIX = true.
Proof. apply (completed_link_shape (lit "/download/about/?x")). reflexivity. Defined.

(** ** The completed link and the file that was found *)

Lemma lstrip_app_stop (y : str) (c : ascii) (z : str) :
  is_slash c = false -> lstrip (y ++ c :: z) (lit "/") = lstrip y (lit "/") ++ c :: z.
Proof.
  intros Hc. induction y as [|x y IH]; cbn [app lstrip]; rewrite mem_slash.
  - now rewrite Hc.
  - destruct (is_slash x); [exact IH | reflexivity].
Qed.

Lemma rstrip_stop (y : str) (c : ascii) :
  is_slash c = false -> rstrip (y ++ [c]) (lit "/") = y ++ [c].
Proof.
  intros Hc. unfold rstrip. rewrite rev_app_distr. cbn [rev app lstrip].
  rewrite mem_slash, Hc. cbn [rev]. now rewrite rev_involutive.
Qed.

Lemma rstrip_one (y : str) (c : ascii) :
  is_slash c = false -> rstrip (y ++ [c; "/"%char]) (lit "/") = y ++ [c].
Proof.
  intros Hc. unfold rstrip. rewrite rev_app_distr. cbn [rev app lstrip].
  rewrite !mem_slash, Hc. cbn [is_slash]. unfold is_slash at 1. rewrite Ascii.eqb_refl.
  cbn [rev]. now rewrite rev_involutive.
Qed.

(** With at most one slash at its end, a text loses the same on the right
    whether one slash or all of them are taken off. *)
Lemma strip_once (b : str) :
  endswith b (lit "//") = false ->
  lstrip (without_final_slash b) (lit "/") = rstrip (lstrip b (lit "/")) (lit "/").
Proof.
  unfold endswith, without_final_slash.
  change (rev (lit "//")) with ["/"%char; "/"%char].
  rewrite <- (rev_involutive b). generalize (rev b) as r. intros r.
  rewrite !rev_involutive. destruct r as [|c r]; [reflexivity|].
  fold (is_slash c). destruct (is_slash c) eqn:Hc.
  - unfold is_slash in Hc. apply Ascii.eqb_eq in Hc as ->.
    destruct r as [|c' r]; [reflexivity|]. rewrite !startswith_cons. cbn [andb].
    rewrite Ascii.eqb_refl. cbn [andb startswith]. rewrite andb_true_r. intros Hc'.
    fold (is_slash c') in Hc'. cbn [rev]. rewrite <- app_assoc. cbn [app].
    rewrite !(lstrip_app_stop _ _ _ Hc'). now rewrite (rstrip_one _ _ Hc').
  - intros _. cbn [rev]. rewrite (lstrip_app_stop _ _ _ Hc). now rewrite (rstrip_stop _ _ Hc).
Qed.

Lemma startswith_more (s p x : str) :
  startswith s p = true -> startswith (s ++ x) p = true.
Proof.
  intros H. apply startswith_inv in H as [t ->]. rewrite <- app_assoc. apply startswith_app.
Qed.

Lemma join_html (root_dir p : str) :
  startswith p (lit "/") = false ->
  os_path_join root_dir (p ++ lit ".html") = os_path_join root_dir p ++ lit ".html".
Proof.
  intros Hp. unfold os_path_join. change os_sep with (lit "/"). rewrite Hp.
  assert (startswith (p ++ lit ".html") (lit "/") = false) as ->.
  { destruct p as [|c p]; [reflexivity | exact Hp]. }
  destruct ((match root_dir with [] => true | _ :: _ => false end)
            || endswith root_dir (lit "/")); now rewrite <- !app_assoc.
Qed.

(** X15: when the URL starts with the prefix and has at most one slash at
    the end of its part before the first marker, the clean path of the
    completed URL is the old clean path with [.html] added, and so the
    completed link resolves to the very file whose existence the fixer
    tested. *)
Theorem completed_link_names_found_file (root_dir url : str) :
  startswith url PATH_PREFIX = true ->
  endswith (before_marker url) (lit "//") = false ->
  clean_path_of (new_url_of url) = clean_path_of url ++ lit ".html"
  /\ potential_file_path_of root_dir (new_url_of url) = potential_html_of root_dir url.
Proof.
  intros H Hss. apply startswith_inv in H as [t ->].
  change (before_marker (PATH_PREFIX ++ t)) with (PATH_PREFIX ++ before_marker t) in Hss.
  assert (endswith (before_marker t) (lit "//") = false) as Hb.
  { destruct (endswith (before_marker t) (lit "//")) eqn:E; [|reflexivity].
    rewrite <- Hss. unfold endswith in *. rewrite rev_app_distr. symmetry.
    now apply startswith_more. }
  assert (url_base_of (PATH_PREFIX ++ t) = PATH_PREFIX ++ without_final_slash (before_marker t))
    as Hbase.
  { rewrite url_base_spec.
    change (before_marker (PATH_PREFIX ++ t)) with (PATH_PREFIX ++ before_marker t).
    destruct (before_marker t) as [|c bm]; [reflexivity|].
    apply without_final_slash_app. discriminate. }
  assert (clean_path_of (new_url_of (PATH_PREFIX ++ t))
          = clean_path_of (PATH_PREFIX ++ t) ++ lit ".html") as Hclean.
  { rewrite (clean_path_spec (PATH_PREFIX ++ t)).
    change (slice_from (PATH_PREFIX ++ t) (length PATH_PREFIX)) with t.
    rewrite <- (strip_once _ Hb).
    unfold clean_path_of, new_url_of. rewrite Hbase.
    change (slice_from ((PATH_PREFIX ++ without_final_slash (before_marker t))
                          ++ lit ".html" ++ suffix_of (PATH_PREFIX ++ t))
                       (length PATH_PREFIX))
      with (without_final_slash (before_marker t)
              ++ lit ".html" ++ suffix_of (PATH_PREFIX ++ t)).
    rewrite !split_head, take_until_twice.
    rewrite (before_marker_app _ _
               (without_final_slash_free _ (before_marker_free t))).
    change (before_marker (lit ".html" ++ suffix_of (PATH_PREFIX ++ t)))
      with (lit ".html" ++ before_marker (suffix_of (PATH_PREFIX ++ t))).
    rewrite suffix_marker, app_nil_r.
    rewrite lstrip_guard, lstrip_html.
    unfold endswith. rewrite rev_app_distr. reflexivity. }
  split; [exact Hclean|].
  unfold potential_html_of, potential_file_path_of. rewrite Hclean.
  change os_sep with (lit "/").
  rewrite !(replace_same (lit "/")) by discriminate.
  apply join_html, clean_path_head.
Qed.

Lemma completed_link_names_found_file_witness :
  potential_file_path_of (lit "/site") (new_url_of (lit "/download/blog/news/?x=1#top"))
  = potential_html_of (lit "/site") (lit "/download/blog/news/?x=1#top").
Proof.
  apply (completed_link_names_found_file (lit "/site") (lit "/download/blog/news/?x=1#top"));
    reflexivity.
Defined.

(** ** The driver *)

Lemma str_eqb_eq (a b : str) : str_eqb a b = true <-> a = b.
Proof. unfold str_eqb. destruct (list_eq_dec ascii_dec a b); split; congruence. Qed.

Lemma endswith_iff (s p : str) : endswith s p = true <-> exists t, s = t ++ p.
Proof.
  unfold endswith. split.
  - intros H. apply startswith_inv in H as [t E]. exists (rev t).
    apply (f_equal (@rev _)) in E. now rewrite rev_involutive, rev_app_distr, rev_involutive in E.
  - intros [t ->]. rewrite rev_app_distr. apply startswith_app.
Qed.

(** X16: [main] takes a file name as a target exactly when the name ends in
    [.html] in any case of letters. *)
Theorem is_target_iff (file : str) :
  is_target file = true <->
  exists stem ext, file = stem ++ ext /\ str_lower ext = lit ".html".
Proof.
  unfold is_target, TARGET_EXTENSIONS. cbn [existsb]. rewrite orb_false_r, endswith_iff.
  unfold str_lower. split.
  - intros [t E]. apply map_eq_app in E as (stem & ext & -> & _ & E). now exists stem, ext.
  - intros (stem & ext & -> & E). exists (map lower stem). now rewrite map_app, E.
Qed.

Lemma is_target_iff_witness : is_target (lit "Index.HTML") = true.
Proof.
  apply (proj2 (is_target_iff _)). exists (lit "Index"), (lit ".HTML"). split; reflexivity.
Defined.

Section Driver.

Context {D : Type}.
Variables (io : FileIO D) (fs : FileSystem) (root_dir : str).

Lemma fold_visit_dir (walk : list walk_entry) (st : Run D) :
  fold_left (visit_dir io fs root_dir) walk st = fold_left (visit io fs root_dir) (visits walk) st.
Proof.
  revert st. induction walk as [|[[root dirs] files] walk IH]; intros st; [reflexivity|].
  simpl. rewrite fold_left_app, <- IH. f_equal.
  clear. revert st. induction files as [|f files IH]; intros st; [reflexivity|].
  simpl. apply IH.
Qed.

Lemma target_files_visits (walk : list walk_entry) :
  target_files walk
  = map (fun v => os_path_join (fst v) (snd v))
        (filter (fun v => is_target (snd v)) (visits walk)).
Proof.
  induction walk as [|[[root dirs] files] walk IH]; [reflexivity|].
  simpl. rewrite filter_app, map_app, <- IH. f_equal.
  clear. induction files as [|f files IH]; [reflexivity|].
  simpl. destruct (is_target f); simpl; now rewrite IH.
Qed.

Lemma print_fields (line : str) (st : Run D) :
  run_disk (print line st) = run_disk st
  /\ processed_count (print line st) = processed_count st
  /\ modified_count (print line st) = modified_count st.
Proof. repeat split. Qed.

(** What one visit does to the counters and to the disk. *)
Lemma visit_effect (st : Run D) (v : str * str) :
  let p := os_path_join (fst v) (snd v) in
  let st' := visit io fs root_dir st v in
  if is_target (snd v) then
    processed_count st' = processed_count st + 1
    /\ match read_text io (run_disk st) p with
       | Raised _ => run_disk st' = run_disk st /\ modified_count st' = modified_count st
       | Returned c =>
         let c' := process_content fs c root_dir in
         if str_eqb c' c
         then run_disk st' = run_disk st /\ modified_count st' = modified_count st
         else run_disk st' = fst (write_text io (run_disk st) p c')
              /\ modified_count st'
                 = modified_count st
                   + match snd (write_text io (run_disk st) p c') with
                     | None => 1
                     | Some _ => 0
                     end
       end
  else st' = st.
Proof.
  unfold visit, visit_file. destruct v as [root file]. cbn [fst snd].
  destruct (is_target file); [|reflexivity].
  split.
  - cbn [run_disk]. destruct (read_text io (run_disk st) (os_path_join root file)); [|reflexivity].
    destruct (str_eqb _ a); [reflexivity|].
    now destruct (write_text io (run_disk st) (os_path_join root file) _) as [d [e|]].
  - cbn [run_disk]. destruct (read_text io (run_disk st) (os_path_join root file)); [|now split].
    destruct (str_eqb _ a); [now split|].
    destruct (write_text io (run_disk st) (os_path_join root file) _) as [d [e|]];
      cbn; split; (reflexivity || lia).
Qed.

Lemma main_fold (walk : list walk_entry) (d : D) :
  exists st0,
    run_disk st0 = d /\ processed_count st0 = 0 /\ modified_count st0 = 0
    /\ let st := fold_left (visit io fs root_dir) (visits walk) st0 in
       run_disk (main io fs root_dir walk d) = run_disk st
       /\ processed_count (main io fs root_dir walk d) = processed_count st
       /\ modified_count (main io fs root_dir walk d) = modified_count st.
Proof.
  unfold main. rewrite fold_visit_dir.
  eexists. split; [|split; [|split; [|cbv zeta; repeat split]]]; reflexivity.
Qed.

Lemma fold_counts (l : list (str * str)) (st : Run D) :
  processed_count (fold_left (visit io fs root_dir) l st)
  = processed_count st + length (filter (fun v => is_target (snd v)) l)
  /\ modified_count (fold_left (visit io fs root_dir) l st)
     <= modified_count st + length (filter (fun v => is_target (snd v)) l)
  /\ modified_count st <= modified_count (fold_left (visit io fs root_dir) l st).
Proof.
  revert st. induction l as [|v l IH]; intros st; [simpl; lia|].
  cbn [fold_left filter]. destruct (IH (visit io fs root_dir st v)) as (Hp & Hm & Hm').
  pose proof (visit_effect st v) as He. cbv zeta in He.
  destruct (is_target (snd v)).
  - destruct He as [Hp1 He]. cbn [length].
    assert (modified_count st <= modified_count (visit io fs root_dir st v)
            /\ modified_count (visit io fs root_dir st v) <= modified_count st + 1) as [H1 H2].
    { destruct (read_text io (run_disk st) _); [|destruct He; lia].
      destruct (str_eqb _ a); [destruct He; lia|].
      destruct He as [_ He]. destruct (snd (write_text io (run_disk st) _ _)); lia. }
    lia.
  - rewrite He in *. lia.
Qed.

(** X17: whatever reading and writing do, the number of files that [main]
    counts as scanned is the number of target files of the walk, and the
    number it counts as modified is no larger. *)
Theorem main_counts (walk : list walk_entry) (d : D) :
  processed_count (main io fs root_dir walk d) = length (target_files walk)
  /\ modified_count (main io fs root_dir walk d) <= processed_count (main io fs root_dir walk d).
Proof.
  destruct (main_fold walk d) as (st0 & _ & Hp0 & Hm0 & Hd & Hp & Hm).
  rewrite Hp, Hm. destruct (fold_counts (visits walk) st0) as (H1 & H2 & _).
  rewrite target_files_visits, length_map. lia.
Qed.

Lemma fold_unchanged (d : D) (l : list (str * str)) (st : Run D) :
  (forall v c, In v l -> is_target (snd v) = true ->
               read_text io d (os_path_join (fst v) (snd v)) = Returned c ->
               process_content fs c root_dir = c) ->
  run_disk st = d ->
  run_disk (fold_left (visit io fs root_dir) l st) = d
  /\ modified_count (fold_left (visit io fs root_dir) l st) = modified_count st.
Proof.
  revert st. induction l as [|v l IH]; intros st Hfix Hd; [now split|].
  cbn [fold_left].
  assert (run_disk (visit io fs root_dir st v) = d /\ modified_count (visit io fs root_dir st v) = modified_count st)
    as [Hd' Hm'].
  { pose proof (visit_effect st v) as He. cbv zeta in He.
    destruct (is_target (snd v)) eqn:Ht; [|now rewrite He].
    destruct He as [_ He]. rewrite Hd in He.
    destruct (read_text io d (os_path_join (fst v) (snd v))) as [c|e] eqn:Hr.
    - rewrite (Hfix v c (or_introl eq_refl) Ht Hr) in He.
      rewrite (proj2 (str_eqb_eq c c) eq_refl) in He. destruct He. split; congruence.
    - destruct He. split; congruence. }
  destruct (IH (visit io fs root_dir st v)) as [H1 H2]; [|exact Hd'|].
  - intros v' c Hin. apply Hfix. now right.
  - split; [exact H1 | congruence].
Qed.

(** X18: when [process_content] gives back unchanged the text of every target
    file that can be read, [main] writes nothing: the disk at the end is the
    disk at the start and the count of modified files is zero. *)
Theorem main_writes_only_changes (walk : list walk_entry) (d : D) :
  (forall p c, In p (target_files walk) -> read_text io d p = Returned c ->
               process_content fs c root_dir = c) ->
  run_disk (main io fs root_dir walk d) = d
  /\ modified_count (main io fs root_dir walk d) = 0.
Proof.
  intros Hfix.
  destruct (main_fold walk d) as (st0 & Hd0 & _ & Hm0 & Hd & _ & Hm).
  rewrite Hd, Hm.
  destruct (fold_unchanged d (visits walk) st0) as [H1 H2]; [|exact Hd0|].
  - intros v c Hin Ht Hr. apply (Hfix (os_path_join (fst v) (snd v)) c); [|exact Hr].
    rewrite target_files_visits. apply in_map_iff. exists v. split; [reflexivity|].
    apply filter_In. now split.
  - split; [exact H1 | congruence].
Qed.

End Driver.

Section DriverResult.

Context {D : Type}.
Variables (io : FileIO D) (fs : FileSystem) (root_dir : str).

(** Every write succeeds and stores the text, and touches no other path. *)
Hypothesis write_stores :
  forall d p c,
    snd (write_text io d p c) = None
    /\ read_text io (fst (write_text io d p c)) p = Returned c
    /\ forall q, q <> p -> read_text io (fst (write_text io d p c)) q = read_text io d q.

Lemma fold_result (d : D) (l : list (str * str)) :
  forall (done : list str) (st : Run D),
  NoDup (done ++ targets_of l) ->
  (forall p, read_text io (run_disk st) p = after_run io fs root_dir done d p) ->
  (forall p, read_text io (run_disk (fold_left (visit io fs root_dir) l st)) p
             = after_run io fs root_dir (done ++ targets_of l) d p)
  /\ modified_count (fold_left (visit io fs root_dir) l st)
     = modified_count st + length (filter (changes io fs root_dir d) (targets_of l)).
Proof.
  induction l as [|v l IH]; intros done st Hnd Hinv.
  - cbn. rewrite app_nil_r. split; [exact Hinv | lia].
  - cbn [fold_left]. pose proof (visit_effect io fs root_dir st v) as He. cbv zeta in He.
    unfold targets_of in *. cbn [filter] in *.
    destruct (is_target (snd v)) eqn:Ht.
    + cbn [map] in *. set (p0 := os_path_join (fst v) (snd v)) in *.
      fold (targets_of l) in *.
      assert (~ In p0 done) as Hp0.
      { apply NoDup_remove_2 in Hnd. intros H. apply Hnd, in_or_app. now left. }
      assert (read_text io (run_disk st) p0 = read_text io d p0) as Hr0.
      { rewrite Hinv. unfold after_run.
        destruct (in_dec (list_eq_dec ascii_dec) p0 done); [contradiction | reflexivity]. }
      destruct He as [_ He]. rewrite Hr0 in He.
      assert ((forall p, read_text io (run_disk (visit io fs root_dir st v)) p
                         = after_run io fs root_dir (done ++ [p0]) d p)
              /\ modified_count (visit io fs root_dir st v)
                 = modified_count st + (if changes io fs root_dir d p0 then 1 else 0))
        as [Hinv' Hm'].
      { unfold changes.
        assert (forall p, p <> p0 ->
                  after_run io fs root_dir (done ++ [p0]) d p
                  = after_run io fs root_dir done d p) as Hother.
        { intros p Hne. unfold after_run.
          destruct (in_dec (list_eq_dec ascii_dec) p (done ++ [p0])) as [Hi|Hi];
            destruct (in_dec (list_eq_dec ascii_dec) p done) as [Hj|Hj]; try reflexivity.
          - apply in_app_or in Hi as [Hi|[Hi|[]]]; [contradiction | congruence].
          - exfalso. apply Hi, in_or_app. now left. }
        assert (after_run io fs root_dir (done ++ [p0]) d p0
                = match read_text io d p0 with
                  | Returned c => Returned (process_content fs c root_dir)
                  | Raised e => Raised e
                  end) as Hself.
        { unfold after_run.
          destruct (in_dec (list_eq_dec ascii_dec) p0 (done ++ [p0])) as [Hi|Hi]; [reflexivity|].
          exfalso. apply Hi, in_or_app. right. now left. }
        destruct (read_text io d p0) as [c|e] eqn:Hr.
        - destruct (str_eqb (process_content fs c root_dir) c) eqn:Hc.
          + destruct He as [Hd Hm]. split; [|cbn; lia].
            intros p. rewrite Hd.
            destruct (list_eq_dec ascii_dec p p0) as [->|Hne].
            * rewrite Hself, Hr0. apply str_eqb_eq in Hc. now rewrite Hc.
            * now rewrite Hother, Hinv.
          + destruct He as [Hd Hm].
            destruct (write_stores (run_disk st) p0 (process_content fs c root_dir))
              as (Hok & Hw & Hfr).
            rewrite Hok in Hm. split; [|cbn; lia].
            intros p. rewrite Hd.
            destruct (list_eq_dec ascii_dec p p0) as [->|Hne].
            * now rewrite Hself, Hw.
            * now rewrite (Hfr p Hne), Hother, Hinv.
        - destruct He as [Hd Hm]. split; [|cbn; lia].
          intros p. rewrite Hd.
          destruct (list_eq_dec ascii_dec p p0) as [->|Hne].
          + now rewrite Hself, Hr0.
          + now rewrite Hother, Hinv. }
      destruct (IH (done ++ [p0]) (visit io fs root_dir st v)) as [H1 H2].
      * now rewrite <- app_assoc.
      * exact Hinv'.
      * rewrite <- app_assoc in H1. split; [exact H1|].
        rewrite H2, Hm'. cbn [filter].
        destruct (changes io fs root_dir d p0); cbn [length]; lia.
    + rewrite He. now apply IH.
Qed.

(** X19: on a disk where every write succeeds, stores the text and touches no
    other path, and for a walk that names no target file twice, after [main]
    every target file that could be read holds its text after
    [process_content], every other path holds what it held, and the count
    of modified files is the number of target files whose text
    [process_content] changes. *)
Theorem main_result (walk : list walk_entry) (d : D) :
  NoDup (target_files walk) ->
  (forall p, read_text io (run_disk (main io fs root_dir walk d)) p
             = after_run io fs root_dir (target_files walk) d p)
  /\ modified_count (main io fs root_dir walk d)
     = length (filter (changes io fs root_dir d) (target_files walk)).
Proof.
  intros Hnd.
  destruct (main_fold io fs root_dir walk d) as (st0 & Hd0 & _ & Hm0 & Hd & _ & Hm).
  rewrite Hd, Hm. rewrite target_files_visits in *.
  destruct (fold_result d (visits walk) [] st0) as [H1 H2].
  - exact Hnd.
  - intros p. rewrite Hd0. reflexivity.
  - split; [exact H1|]. rewrite H2, Hm0. reflexivity.
Qed.

End DriverResult.

Lemma list_io_stores (d : list (str * str)) (p c : str) :
  snd (write_text list_io d p c) = None
  /\ read_text list_io (fst (write_text list_io d p c)) p = Returned c
  /\ forall q, q <> p -> read_text list_io (fst (write_text list_io d p c)) q
                         = read_text list_io d q.
Proof.
  split; [reflexivity|]. split.
  - cbn. now rewrite (proj2 (str_eqb_eq p p) eq_refl).
  - intros q Hne. cbn. destruct (str_eqb p q) eqn:E; [|reflexivity].
    apply str_eqb_eq in E. congruence.
Qed.

Lemma main_writes_only_changes_witness :
  run_disk (main list_io sample_fs (lit "/site") [(lit "/site", [], [lit "notes.html"])]
                 [(lit "/site/notes.html", lit "plain text")])
  = [(lit "/site/notes.html", lit "plain text")]
  /\ modified_count (main list_io sample_fs (lit "/site") [(lit "/site", [], [lit "notes.html"])]
                          [(lit "/site/notes.html", lit "plain text")]) = 0.
Proof.
  apply (main_writes_only_changes list_io sample_fs (lit "/site")).
  intros p c [<-|[]] H. vm_compute in H. injection H as <-. vm_compute. reflexivity.
Defined.

Lemma main_result_witness :
  read_text list_io (run_disk (main list_io sample_fs (lit "/site") sample_walk sample_disk))
            (lit "/site/index.html")
  = Returned (lit "<a href='/download/blog/News'>news</a>")
  /\ read_text list_io (run_disk (main list_io sample_fs (lit "/site") sample_walk sample_disk))
               (lit "/site/logo.png")
     = Returned (lit "href='/x'")
  /\ modified_count (main list_io sample_fs (lit "/site") sample_walk sample_disk) = 1.
Proof.
  destruct (main_result list_io sample_fs (lit "/site") list_io_stores sample_walk sample_disk)
    as [Hr Hm].
  - repeat constructor; simpl; intuition discriminate.
  - rewrite !Hr, Hm. repeat split; vm_compute; reflexivity.
Defined.
